(** * whisper_mps: a shallow embedding of the MPS compatibility shim

    The Python script [whisper_mps.py] wraps the Whisper command line:
    it patches [torch.Tensor.to], [torch.nn.Module._apply] and
    [whisper.load_model], runs [whisper.transcribe.cli] and, on the
    sparse-tensor [NotImplementedError], rewrites [sys.argv] to force
    the CPU and runs the command line once more.

    The embedding follows the script function by function.  The torch
    and whisper calls the script wraps are interfaces (type classes);
    Python exceptions are an explicit result type; the process globals
    the script touches ([sys.argv], the logger, the clock, the calls
    made to the wrapped command line) form a [World] that is threaded
    through a small state-and-exception monad. *)

From Stdlib Require Import String Ascii List ZArith Bool Lia.
Import ListNotations.
Local Open Scope string_scope.
Local Open Scope list_scope.

(** ** Python strings *)

(** [s.startswith(p)] *)
Definition startswith (s p : string) : bool := String.prefix p s.

(** [needle in haystack] on strings: some suffix of [haystack] starts
    with [needle]. *)
Fixpoint str_contains (needle haystack : string) : bool :=
  match haystack with
  | EmptyString => String.prefix needle EmptyString
  | String _ rest => String.prefix needle haystack || str_contains needle rest
  end.

(** The operation name the script looks for in the message of a
    [NotImplementedError]. *)
Definition sparse_marker : string :=
  "aten::_sparse_coo_tensor_with_dims_and_tensors".

(** ** The argument rewrite of the CPU retry ([main], lines 175-193)

    The [for] loop over [args] with its two loop variables: the flag
    [skip_next] and the list [new_args] that is extended in place. *)
Fixpoint rewrite_loop (args : list string) (skip_next : bool)
         (new_args : list string) : list string :=
  match args with
  | [] => new_args
  | arg :: rest =>
      if skip_next then rewrite_loop rest false new_args
      else if arg =? "--device" then
        rewrite_loop rest true (new_args ++ ["--device"; "cpu"])
      else if startswith arg "--device=" then
        rewrite_loop rest false (new_args ++ ["--device=cpu"])
      else if arg =? "--fp16" then
        rewrite_loop rest true (new_args ++ ["--fp16"; "False"])
      else if startswith arg "--fp16=" then
        rewrite_loop rest false (new_args ++ ["--fp16=False"])
      else
        rewrite_loop rest false (new_args ++ [arg])
  end.

(** [new_args] after the loop, started with [new_args = []] and
    [skip_next = False]. *)
Definition rewrite_args (args : list string) : list string :=
  rewrite_loop args false [].

(** ** Python values, exceptions and results *)

(** The values the wrapped command line may return and [sys.exit] may
    receive: [None], an integer, or some other object (given by its
    [str]). *)
Inductive pyval : Type :=
| VNone
| VInt (n : Z)
| VObj (str : string).

(** Failures: the exceptions derived from [Exception].  The script
    distinguishes [NotImplementedError] from every other class. *)
Inductive failure : Type :=
| NotImplementedError (msg : string)
| OtherError (tyname : string) (msg : string).

(** What a call may raise: a failure, or [SystemExit], which derives
    from [BaseException] only and is what [sys.exit] raises. *)
Inductive raised : Type :=
| Failure (f : failure)
| SystemExit (code : pyval).

(** [str(e)] and [type(e).__name__] *)
Definition failure_str (f : failure) : string :=
  match f with
  | NotImplementedError msg => msg
  | OtherError _ msg => msg
  end.

Definition failure_type_name (f : failure) : string :=
  match f with
  | NotImplementedError _ => "NotImplementedError"
  | OtherError tyname _ => tyname
  end.

(** The message of the failure contains the operation name, whatever
    the class of the failure.  The script itself makes this test under
    [except NotImplementedError] only (lines 57-59 and 168-172). *)
Definition has_marker (f : failure) : bool :=
  str_contains sparse_marker (failure_str f).

Inductive Res (A : Type) : Type :=
| Return (a : A)
| Raise (e : raised).
Arguments Return {A} a.
Arguments Raise {A} e.

(** ** Process globals: [sys.argv], the logger, the clock *)

Inductive level : Type := INFO | WARNING | ERROR.

(** A log record: the text of the f-string, with the list or the
    duration it formats kept as data. *)
Inductive log_msg : Type :=
| Text (s : string)
| TextArgv (s : string) (args : list string)
| TextSeconds (s : string) (duration : Z) (unit_ : string).

Definition LogRecord : Type := level * log_msg.

(** The wrapped calls (the unpatched torch methods, the transform
    handed to [_apply], the whisper loader and command line) enter the
    embedding by their outcome alone.  What they log or read of the
    clock while they run, be it through the patches of this script, is
    not recorded: [log] and [ticks] account for the statements of the
    function under study. *)
Record World : Type := mkWorld {
  argv : list string;            (* sys.argv *)
  log : list LogRecord;          (* records emitted so far, oldest first *)
  cli_calls : list (list string);(* sys.argv at each call of cli(), oldest first *)
  ticks : nat                    (* number of time.time() readings taken *)
}.

(** State and exceptions. *)
Definition M (A : Type) : Type := World -> Res A * World.

Definition ret {A} (a : A) : M A := fun w => (Return a, w).

Definition raise {A} (e : raised) : M A := fun w => (Raise e, w).

Definition bind {A B} (c : M A) (k : A -> M B) : M B :=
  fun w =>
    match c w with
    | (Return a, w') => k a w'
    | (Raise e, w') => (Raise e, w')
    end.

Notation "x <- c ;; k" := (bind c (fun x => k))
  (at level 61, c at next level, right associativity).
Notation "c ;;; k" := (bind c (fun _ => k))
  (at level 61, right associativity).

(** A call into the wrapped libraries that does not touch the globals. *)
Definition lift {A} (r : Res A) : M A := fun w => (r, w).

(** [try: body except ...]: [handler e] is [Some h] when an [except]
    clause matches [e] and [None] when none does. *)
Definition try_except {A} (body : M A) (handler : raised -> option (M A)) : M A :=
  fun w =>
    match body w with
    | (Return a, w') => (Return a, w')
    | (Raise e, w') =>
        match handler e with
        | Some h => h w'
        | None => (Raise e, w')
        end
    end.

Definition logger (l : level) (m : log_msg) : M unit :=
  fun w => (Return tt, mkWorld (argv w) (log w ++ [(l, m)]) (cli_calls w) (ticks w)).

Definition get_argv : M (list string) := fun w => (Return (argv w), w).

Definition set_argv (a : list string) : M unit :=
  fun w => (Return tt, mkWorld a (log w) (cli_calls w) (ticks w)).

(** The clock: [time_time n] is the reading of the [n]-th call of
    [time.time()], in hundredths of a second. *)
Class Clock : Type := { time_time : nat -> Z }.

Definition now `{Clock} : M Z :=
  fun w => (Return (time_time (ticks w)),
            mkWorld (argv w) (log w) (cli_calls w) (S (ticks w))).

(** ** The tensor interface of torch

    What the script uses of a tensor: [is_sparse], [to_dense()] and
    the unpatched [torch.Tensor.to] saved in [_original_to].  [ToArgs]
    stands for the [*args, **kwargs] that are passed on untouched. *)
Class Torch : Type := {
  Tensor : Type;
  ToArgs : Type;
  is_sparse : Tensor -> bool;
  to_dense : Tensor -> Res Tensor;
  _original_to : Tensor -> ToArgs -> Res Tensor
}.

(** ** [patched_to] (lines 36-45) *)
Definition patched_to `{Torch} (self : Tensor) (args : ToArgs) : M Tensor :=
  try_except
    (lift (_original_to self args))
    (fun e =>
       match e with
       | Failure (NotImplementedError msg) =>
           Some (if is_sparse self then
                   logger WARNING
                     (Text ("Converting sparse tensor to dense for MPS compatibility: " ++ msg)) ;;;
                   dense <- lift (to_dense self) ;;
                   lift (_original_to dense args)
                 else
                   logger ERROR (Text ("NotImplementedError in patched_to: " ++ msg)) ;;;
                   raise e)
       | _ => None
       end).

(** ** Modules

    [self._parameters] and [self._buffers] are ordered dictionaries
    from names to tensors or [None]; [self.children()] yields the
    sub-modules. *)
Definition dict `{Torch} : Type := list (string * option Tensor).

#[warnings="-register-all"]
Inductive Module `{Torch} : Type :=
| mkModule (_parameters : dict) (_buffers : dict) (children : list Module).

Definition _parameters `{Torch} (m : Module) : dict :=
  match m with mkModule p _ _ => p end.
Definition _buffers `{Torch} (m : Module) : dict :=
  match m with mkModule _ b _ => b end.
Definition children `{Torch} (m : Module) : list Module :=
  match m with mkModule _ _ c => c end.

(** [d[key] = v] *)
Fixpoint dict_set `{Torch} (d : dict) (key : string) (v : option Tensor) : dict :=
  match d with
  | [] => [(key, v)]
  | (k, old) :: rest =>
      if k =? key then (k, v) :: rest else (k, old) :: dict_set rest key v
  end.

(** The transform handed to [_apply]. *)
Definition transform `{Torch} : Type := Tensor -> Res Tensor.

(** The outcome of the unpatched [torch.nn.Module._apply]: it mutates
    the module in place, so when it raises the module is left as far
    as the call got. *)
Inductive BulkResult `{Torch} : Type :=
| BulkReturned (self : Module)
| BulkRaised (e : raised) (left : Module).

Class TorchModule `{Torch} : Type := {
  _original_apply : Module -> transform -> BulkResult
}.

(** The two per-item loops of [patched_apply] (lines 63-73 over
    [self._parameters] with [what = "parameter"], lines 75-85 over
    [self._buffers] with [what = "buffer"]): [items] is what is left
    of [items()], [d] the dictionary as updated so far. *)
Fixpoint apply_items `{Torch} (what : string) (fn : transform)
         (items : dict) (d : dict) : M dict :=
  match items with
  | [] => ret d
  | (key, None) :: rest => apply_items what fn rest d
  | (key, Some param) :: rest =>
      d' <- try_except
              (param_applied <- lift (fn param) ;;
               ret (dict_set d key (Some param_applied)))
              (fun e =>
                 match e with
                 | Failure (NotImplementedError _) =>
                     Some (if is_sparse param then
                             logger INFO
                               (Text ("Converting sparse " ++ what ++ " to dense: " ++ key)) ;;;
                             dense_param <- lift (to_dense param) ;;
                             param_applied <- lift (fn dense_param) ;;
                             ret (dict_set d key (Some param_applied))
                           else ret d)
                 | _ => None
                 end) ;;
      apply_items what fn rest d'
  end.

(** [for module in self.children(): module._apply(fn)] (lines 87-88);
    [_apply] is whatever the attribute is bound to. *)
Fixpoint apply_children `{Torch} (_apply : Module -> transform -> M Module)
         (fn : transform) (cs : list Module) : M (list Module) :=
  match cs with
  | [] => ret []
  | module :: rest =>
      module' <- _apply module fn ;;
      rest' <- apply_children _apply fn rest ;;
      ret (module' :: rest')
  end.

(** ** [patched_apply] (lines 54-92)

    [module._apply(fn)] on line 88 is looked up on the module when it
    runs, so the function takes the method it finds as [_apply]. *)
Definition patched_apply `{TorchModule}
           (_apply : Module -> transform -> M Module)
           (self : Module) (fn : transform) : M Module :=
  match _original_apply self fn with
  | BulkReturned self' => ret self'
  | BulkRaised (Failure (NotImplementedError error_message)) self' =>
      if str_contains sparse_marker error_message then
        logger WARNING (Text ("Handling sparse tensor in Module._apply: " ++ error_message)) ;;;
        params <- apply_items "parameter" fn (_parameters self') (_parameters self') ;;
        bufs <- apply_items "buffer" fn (_buffers self') (_buffers self') ;;
        cs <- apply_children _apply fn (children self') ;;
        ret (mkModule params bufs cs)
      else raise (Failure (NotImplementedError error_message))
  | BulkRaised e _ => raise e
  end.

(** After line 95 [torch.nn.Module._apply] is [patched_apply] itself.
    [depth] is the number of nested calls the interpreter still
    allows; beyond it Python raises [RecursionError]. *)
Fixpoint Module__apply `{TorchModule} (depth : nat)
         (self : Module) (fn : transform) : M Module :=
  match depth with
  | O => raise (Failure (OtherError "RecursionError" "maximum recursion depth exceeded"))
  | S depth' => patched_apply (Module__apply depth') self fn
  end.

(** ** The whisper interface

    [cli n a] is what the [n]-th call (counted from 0) of
    [whisper.transcribe.cli] does when it finds [a] in [sys.argv]: the
    value it returns or what it raises. *)
Class Whisper : Type := {
  Model : Type;
  original_load_model : string -> option string -> option string -> bool -> Res Model;
  model_eval : Model -> Res Model;      (* model.eval(), which returns the model *)
  mps_empty_cache : Res unit;           (* torch.mps.empty_cache() *)
  cli : nat -> list string -> Res pyval
}.

(** [str(device)] for a device given as a string or [None]. *)
Definition str_of_device (device : option string) : string :=
  match device with
  | Some d => d
  | None => "None"
  end.

Definition device_is_mps (device : option string) : bool :=
  match device with
  | Some d => d =? "mps"
  | None => false
  end.

(** ** [optimized_load_model] (lines 101-120) *)
Definition optimized_load_model `{Whisper} `{Clock}
           (name : string) (device download_root : option string)
           (in_memory : bool) : M Model :=
  start_time <- now ;;
  logger INFO (Text ("Loading model " ++ name ++ " to device " ++ str_of_device device)) ;;;
  model <- lift (original_load_model name device download_root in_memory) ;;
  model <- (if device_is_mps device then
              model' <- lift (model_eval model) ;;
              lift mps_empty_cache ;;;
              logger INFO (Text "Pre-compiling common operations for MPS") ;;;
              ret model'
            else ret model) ;;
  end_time <- now ;;
  let load_time := (end_time - start_time)%Z in
  logger INFO (TextSeconds "Model loaded in " load_time " seconds") ;;;
  ret model.

(** ** [benchmark_transcription] (lines 126-132) *)
Definition benchmark_transcription `{Clock} {A} (func : M A) : M (A * Z) :=
  start_time <- now ;;
  result <- func ;;
  end_time <- now ;;
  let duration := (end_time - start_time)%Z in
  logger INFO (TextSeconds "Transcription completed in " duration " seconds") ;;;
  ret (result, duration).

(** ** [main] (lines 134-201) *)

(** A call of [cli()]: it reads [sys.argv].  Only its outcome is
    taken from the interface; the records and clock readings of the
    run itself (which loads the model through [optimized_load_model])
    are left out of [log] and [ticks]. *)
Definition call_cli `{Whisper} : M pyval :=
  fun w =>
    (cli (length (cli_calls w)) (argv w),
     mkWorld (argv w) (log w) (cli_calls w ++ [argv w]) (ticks w)).

(** The scan of lines 139-145. *)
Fixpoint using_mps (args : list string) : bool :=
  match args with
  | [] => false
  | arg :: rest =>
      if (arg =? "--device") &&
         match rest with
         | next :: _ => next =? "mps"
         | [] => false
         end
      then true
      else if startswith arg "--device=mps" then true
      else using_mps rest
  end.

(** [x in l] and [l.remove(x)], which removes the first occurrence and
    raises [ValueError] when there is none. *)
Definition list_in (x : string) (l : list string) : bool :=
  existsb (String.eqb x) l.

Fixpoint list_remove (x : string) (l : list string) : option (list string) :=
  match l with
  | [] => None
  | y :: rest =>
      if y =? x then Some rest
      else match list_remove x rest with
           | Some rest' => Some (y :: rest')
           | None => None
           end
  end.

Definition argv_remove (x : string) : M unit :=
  a <- get_argv ;;
  match list_remove x a with
  | Some a' => set_argv a'
  | None => raise (Failure (OtherError "ValueError" "list.remove(x): x not in list"))
  end.

(** Lines 175-194: [sys.argv = [sys.argv[0]] + new_args]. *)
Definition force_cpu_argv : M unit :=
  a <- get_argv ;;
  let args := tl a in
  let new_args := rewrite_args args in
  match a with
  | argv0 :: _ => set_argv ([argv0] ++ new_args)
  | [] => raise (Failure (OtherError "IndexError" "list index out of range"))
  end.

Definition main `{Whisper} `{Clock} : M pyval :=
  a <- get_argv ;;
  logger INFO (TextArgv "Starting whisper_mps with args: " a) ;;;
  (if using_mps a
   then logger INFO (Text "Running with MPS (GPU) acceleration")
   else logger INFO (Text "Running with CPU")) ;;;
  try_except
    (a <- get_argv ;;
     if list_in "--benchmark" a then
       argv_remove "--benchmark" ;;;
       logger INFO (Text "Running in benchmark mode") ;;;
       rd <- benchmark_transcription call_cli ;;
       ret (fst rd)
     else
       logger INFO (Text "Attempting to run whisper") ;;;
       call_cli)
    (fun e =>
       match e with
       | Failure (NotImplementedError error_message) =>
           Some (logger ERROR (Text ("NotImplementedError: " ++ error_message)) ;;;
                 if str_contains sparse_marker error_message then
                   logger WARNING (Text "Falling back to CPU due to sparse tensor error") ;;;
                   force_cpu_argv ;;;
                   a <- get_argv ;;
                   logger INFO (TextArgv "Retrying with CPU: " a) ;;;
                   call_cli
                 else raise e)
       | Failure f =>
           Some (logger ERROR
                   (Text ("Unexpected error: " ++ failure_type_name f ++ ": " ++ failure_str f)) ;;;
                 raise e)
       | SystemExit _ => None
       end).

(** ** The script body (lines 203-208) *)

(** [sys.exit(v)] raises [SystemExit(v)]; the interpreter turns the
    value into the exit code: [None] is 0, an integer is itself, any
    other object is printed and gives 1. *)
Definition sys_exit {A} (v : pyval) : M A := raise (SystemExit v).

Definition exit_code_of (v : pyval) : Z :=
  match v with
  | VNone => 0
  | VInt n => n
  | VObj _ => 1
  end.

Definition script_body `{Whisper} `{Clock} : M unit :=
  try_except
    (v <- main ;; sys_exit v)
    (fun e =>
       match e with
       | Failure f =>
           Some (logger ERROR
                   (Text ("Fatal error: " ++ failure_type_name f ++ ": " ++ failure_str f)) ;;;
                 sys_exit (VInt 1))
       | SystemExit _ => None
       end).

(** The exit code of the process and the globals it ends with.  A
    script that runs off its end exits with 0, a failure nobody
    catches with 1. *)
Definition run_script `{Whisper} `{Clock} (w : World) : Z * World :=
  match script_body w with
  | (Return _, w') => (0%Z, w')
  | (Raise (SystemExit v), w') => (exit_code_of v, w')
  | (Raise (Failure _), w') => (1%Z, w')
  end.

(** The globals when [main] is entered with [a] in [sys.argv]; the
    records logged while the script is loaded (lines 17-31, 49, 96) are
    left out. *)
Definition start (a : list string) : World := mkWorld a [] [] 0.

(** [sys.argv] as the first call of [cli()] finds it (lines 154-156). *)
Definition delegated_argv (a : list string) : list string :=
  if list_in "--benchmark" a then
    match list_remove "--benchmark" a with
    | Some a' => a'
    | None => a
    end
  else a.

Definition is_NotImplementedError (e : raised) : bool :=
  match e with
  | Failure (NotImplementedError _) => true
  | _ => false
  end.

(** ** The rewrite rule in the words of the specification

    The device flag and the precision flag come in a space form, whose
    value is the next argument, and in a join form. *)
Definition is_space_flag (arg : string) : bool :=
  (arg =? "--device") || (arg =? "--fp16").

Definition is_join_flag (arg : string) : bool :=
  startswith arg "--device=" || startswith arg "--fp16=".

(** The arguments that are neither one of the two flags nor the value
    consumed by a space-form flag, in their order.  [consumed] tells
    that the argument at the head is such a value. *)
Fixpoint untouched_from (consumed : bool) (args : list string) : list string :=
  match args with
  | [] => []
  | arg :: rest =>
      if consumed then untouched_from false rest
      else if is_space_flag arg then untouched_from true rest
      else if is_join_flag arg then untouched_from false rest
      else arg :: untouched_from false rest
  end.

Definition untouched (args : list string) : list string :=
  untouched_from false args.

(** The CPU-forcing form of a device flag and the disabled form of a
    precision flag. *)
Definition safe_form (arg : string) : list string :=
  if arg =? "--device" then ["--device"; "cpu"]
  else if startswith arg "--device=" then ["--device=cpu"]
  else if arg =? "--fp16" then ["--fp16"; "False"]
  else if startswith arg "--fp16=" then ["--fp16=False"]
  else [].

(** The safe forms of the flags that occur, in their order. *)
Fixpoint replacements_from (consumed : bool) (args : list string) : list string :=
  match args with
  | [] => []
  | arg :: rest =>
      if consumed then replacements_from false rest
      else if is_space_flag arg then safe_form arg ++ replacements_from true rest
      else if is_join_flag arg then safe_form arg ++ replacements_from false rest
      else replacements_from false rest
  end.

Definition replacements (args : list string) : list string :=
  replacements_from false args.

(** [Interleave xs ys zs]: [zs] is [xs] and [ys] shuffled together,
    each keeping its order. *)
Inductive Interleave {A : Type} : list A -> list A -> list A -> Prop :=
| Interleave_nil : Interleave [] [] []
| Interleave_left x xs ys zs :
    Interleave xs ys zs -> Interleave (x :: xs) ys (x :: zs)
| Interleave_right y xs ys zs :
    Interleave xs ys zs -> Interleave xs (y :: ys) (y :: zs).


(** ** What the module guard is to achieve

    [transformed fn t t']: [t'] is the transform of [t], or, for a
    sparse [t] the transform refuses, of its dense form. *)
Definition transformed `{Torch} (fn : transform) (t t' : Tensor) : Prop :=
  fn t = Return t'
  \/ (is_sparse t = true
      /\ (exists msg, fn t = Raise (Failure (NotImplementedError msg)))
      /\ exists dense, to_dense t = Return dense /\ fn dense = Return t').

(** The same for an entry of [_parameters] or [_buffers]: the name is
    kept, [None] stays [None]. *)
Definition entry_transformed `{Torch} (fn : transform)
           (e e' : string * option Tensor) : Prop :=
  fst e = fst e'
  /\ match snd e, snd e' with
     | None, None => True
     | Some t, Some t' => transformed fn t t'
     | _, _ => False
     end.

(** An entry that is [None] or a dense tensor the transform accepts. *)
Definition dense_entry_ok `{Torch} (fn : transform)
           (e : string * option Tensor) : Prop :=
  match snd e with
  | None => True
  | Some t => is_sparse t = false /\ exists t', fn t = Return t'
  end.

(** An entry the per-item pass gets through: [None], a tensor the
    transform accepts, or a sparse one it refuses but accepts dense. *)
Definition entry_passes `{Torch} (fn : transform)
           (e : string * option Tensor) : Prop :=
  match snd e with
  | None => True
  | Some t => exists t', transformed fn t t'
  end.

(** ** Test doubles

    Small instances of the interfaces, on which the guards and the
    entry point can be run. *)

(** A tensor that knows its layout, its device, whether its elements
    are 64-bit floats, and its contents. *)
Record toy_tensor : Type := mk_toy {
  toy_sparse : bool;
  toy_device : string;
  toy_float64 : bool;
  toy_data : nat
}.

Definition moved (t : toy_tensor) (device : string) : toy_tensor :=
  mk_toy (toy_sparse t) device (toy_float64 t) (toy_data t).

(** A backend on which a sparse tensor cannot be moved to ["mps"] (the
    failure carries [sparse_message]), a tensor on the ["meta"] device
    has no data to move, ["mps"] takes no 64-bit floats, any other
    tensor can be moved to ["cpu"] and ["mps"], and any other device
    name is an error. *)
Definition toy_backend (sparse_message : string) : Torch := {|
  Tensor := toy_tensor;
  ToArgs := string;
  is_sparse := toy_sparse;
  to_dense := fun t =>
    Return (mk_toy false (toy_device t) (toy_float64 t) (toy_data t));
  _original_to := fun t device =>
    if toy_sparse t && (device =? "mps") then
      Raise (Failure (NotImplementedError sparse_message))
    else if toy_device t =? "meta" then
      Raise (Failure (NotImplementedError "Cannot copy out of meta tensor; no data!"))
    else if toy_float64 t && (device =? "mps") then
      Raise (Failure (OtherError "TypeError"
                        "Cannot convert a MPS Tensor to float64 dtype as the MPS framework doesn't support float64."))
    else if (device =? "cpu") || (device =? "mps") then
      Return (moved t device)
    else
      Raise (Failure (OtherError "RuntimeError" ("Invalid device string: " ++ device)))
|}.

(** The message torch gives for the sparse constructor on MPS, and one
    for another operation. *)
Definition sparse_coo_message : string :=
  "Could not run 'aten::_sparse_coo_tensor_with_dims_and_tensors' with arguments from the 'SparseMPS' backend.".

Definition to_copy_message : string :=
  "Could not run 'aten::_to_copy' with arguments from the 'SparseMPS' backend.".

Definition mps_backend : Torch := toy_backend sparse_coo_message.
Definition other_backend : Torch := toy_backend to_copy_message.

(** A loader that knows one model, and a command line given by [c]. *)
Definition toy_whisper (c : nat -> list string -> Res pyval) : Whisper := {|
  Model := string;
  original_load_model := fun name _ _ _ =>
    if name =? "tiny" then Return name
    else Raise (Failure (OtherError "RuntimeError" ("Model " ++ name ++ " not found")));
  model_eval := fun m => Return m;
  mps_empty_cache := Return tt;
  cli := c
|}.

(** A command line like whisper's: argparse leaves with status 2 when
    no audio file is given or when it meets [--benchmark], which it does
    not know; the run fails with the sparse error when MPS is asked for,
    and returns [None] otherwise. *)
Definition mps_cli (n : nat) (a : list string) : Res pyval :=
  if list_in "--benchmark" (tl a) then Raise (SystemExit (VInt 2))
  else match tl a with
       | [] => Raise (SystemExit (VInt 2))
       | _ :: _ =>
           if using_mps a then Raise (Failure (NotImplementedError sparse_coo_message))
           else Return VNone
       end.

(** A command line that only ever returns [None] or fails. *)
Definition plain_cli (n : nat) (a : list string) : Res pyval :=
  if using_mps a then Raise (Failure (NotImplementedError sparse_coo_message))
  else Return VNone.

(** A command line that meets the sparse error on every device. *)
Definition broken_cli (n : nat) (a : list string) : Res pyval :=
  Raise (Failure (NotImplementedError sparse_coo_message)).

(** A clock that advances by one second at each reading. *)
Definition toy_clock : Clock := {| time_time := fun n => Z.of_nat (100 * n) |}.

(** A bulk [_apply] for the toy tensors: it stops at the first
    parameter or buffer the transform fails on and leaves the module as
    it was; otherwise it replaces every tensor by its transform.  It
    does not visit children. *)
Fixpoint first_failure `{Torch} (fn : transform) (items : dict) : option raised :=
  match items with
  | [] => None
  | (_, None) :: rest => first_failure fn rest
  | (_, Some t) :: rest =>
      match fn t with
      | Raise e => Some e
      | Return _ => first_failure fn rest
      end
  end.

Definition map_items `{Torch} (fn : transform) (items : dict) : dict :=
  map (fun e : string * option Tensor =>
         match snd e with
         | Some t => match fn t with
                     | Return t' => (fst e, Some t')
                     | Raise _ => e
                     end
         | None => e
         end) items.

Definition toy_modules `{Torch} : TorchModule := {|
  _original_apply := fun self fn =>
    match first_failure fn (_parameters self ++ _buffers self) with
    | Some e => BulkRaised e self
    | None => BulkReturned (mkModule (map_items fn (_parameters self))
                                     (map_items fn (_buffers self))
                                     (children self))
    end
|}.

(** [lambda t: _original_to(t, "mps")]: a transfer through the method
    the script saved on line 34, as made by code that took hold of
    [torch.Tensor.to] before line 48 replaced it.  It does not go
    through [patched_to], so it fails on a sparse tensor. *)
Definition to_mps (sparse_message : string) : @transform (toy_backend sparse_message) :=
  fun t => @_original_to (toy_backend sparse_message) t "mps".

(** A whisper whose loader and command line fail with [f]. *)
Definition failing_whisper (f : failure) : Whisper := {|
  Model := string;
  original_load_model := fun _ _ _ _ => Raise (Failure f);
  model_eval := fun m => Return m;
  mps_empty_cache := Return tt;
  cli := fun _ _ => Raise (Failure f)
|}.

(** Toy tensors and modules for the MPS-like backend. *)
Definition dense_cpu (n : nat) : toy_tensor := mk_toy false "cpu" false n.
Definition sparse_cpu (n : nat) : toy_tensor := mk_toy true "cpu" false n.
Definition dense_meta (n : nat) : toy_tensor := mk_toy false "meta" false n.

(** A layer with a sparse parameter between two dense ones, a buffer
    and one child. *)
Definition toy_child : @Module mps_backend :=
  @mkModule mps_backend [("scale", Some (dense_cpu 5))] [] [].

Definition toy_layer : @Module mps_backend :=
  @mkModule mps_backend
    [("weight", Some (dense_cpu 1)); ("indices", Some (sparse_cpu 2));
     ("bias", Some (dense_cpu 3))]
    [("mask", Some (dense_cpu 4)); ("cache", None)]
    [toy_child].

(** The same layer with one more buffer, sparse like the
    [alignment_heads] of a whisper model. *)
Definition toy_layer_sparse_buffer : @Module mps_backend :=
  @mkModule mps_backend
    [("weight", Some (dense_cpu 1)); ("indices", Some (sparse_cpu 2));
     ("bias", Some (dense_cpu 3))]
    [("alignment_heads", Some (sparse_cpu 7)); ("mask", Some (dense_cpu 4));
     ("cache", None)]
    [toy_child].

(** A layer with a dense parameter on the meta device. *)
Definition toy_layer_meta : @Module mps_backend :=
  @mkModule mps_backend
    [("indices", Some (sparse_cpu 2)); ("weight", Some (dense_meta 1))]
    []
    [].

(** ** More on the argument rewrite *)

(** The value of [skip_next] when the loop of lines 178-193 ends. *)
Fixpoint skip_next_after (skip_next : bool) (args : list string) : bool :=
  match args with
  | [] => skip_next
  | arg :: rest =>
      if skip_next then skip_next_after false rest
      else if arg =? "--device" then skip_next_after true rest
      else if startswith arg "--device=" then skip_next_after false rest
      else if arg =? "--fp16" then skip_next_after true rest
      else skip_next_after false rest
  end.

(** An argument list that already forces the CPU and full precision:
    every [--device] is followed by [cpu], every [--fp16] by [False],
    and the join forms are [--device=cpu] and [--fp16=False].
    [expected] is the value the token at the head has to be, if any. *)
Fixpoint safe_args_from (expected : option string) (args : list string) : bool :=
  match args with
  | [] => match expected with
          | None => true
          | Some _ => false
          end
  | arg :: rest =>
      match expected with
      | Some value => (arg =? value) && safe_args_from None rest
      | None =>
          if arg =? "--device" then safe_args_from (Some "cpu") rest
          else if startswith arg "--device=" then
            (arg =? "--device=cpu") && safe_args_from None rest
          else if arg =? "--fp16" then safe_args_from (Some "False") rest
          else if startswith arg "--fp16=" then
            (arg =? "--fp16=False") && safe_args_from None rest
          else safe_args_from None rest
      end
  end.

Definition safe_args (args : list string) : bool := safe_args_from None args.

(** An argument that is none of the two flags, in either form. *)
Definition is_plain (arg : string) : bool :=
  negb (is_space_flag arg || is_join_flag arg).

(** ** The records the entry point logs *)

(** Lines 135, 147-150 and 157 or 166: what [main] logs before the
    first call of [cli()]. *)
Definition main_intro (a : list string) : list LogRecord :=
  [(INFO, TextArgv "Starting whisper_mps with args: " a);
   (INFO, Text (if using_mps a then "Running with MPS (GPU) acceleration"
                else "Running with CPU"));
   (INFO, Text (if list_in "--benchmark" a then "Running in benchmark mode"
                else "Attempting to run whisper"))].

(** Lines 170 and 200: the record of a failure [main] catches. *)
Definition caught_record (f : failure) : LogRecord :=
  match f with
  | NotImplementedError msg => (ERROR, Text ("NotImplementedError: " ++ msg))
  | OtherError tyname msg =>
      (ERROR, Text ("Unexpected error: " ++ tyname ++ ": " ++ msg))
  end.

(** Line 207: the record of a failure that reaches the top level. *)
Definition fatal_record (f : failure) : LogRecord :=
  (ERROR, Text ("Fatal error: " ++ failure_type_name f ++ ": " ++ failure_str f)).

(** Lines 173 and 195: the records of the CPU fallback. *)
Definition fallback_records (a : list string) : list LogRecord :=
  [(WARNING, Text "Falling back to CPU due to sparse tensor error");
   (INFO, TextArgv "Retrying with CPU: " a)].

(** The failure that triggers the CPU retry (lines 168, 172). *)
Definition is_sparse_error (f : failure) : bool :=
  match f with
  | NotImplementedError msg => str_contains sparse_marker msg
  | OtherError _ _ => false
  end.

(** The clock readings taken when the first call of [cli()] has raised:
    one more in benchmark mode (line 127). *)
Definition ticks_at_failure (w : World) : nat :=
  if list_in "--benchmark" (argv w) then S (ticks w) else ticks w.

(** ** What the torch patches leave alone *)

(** [w'] differs from [w] by records appended to the log only. *)
Definition only_logs (w w' : World) : Prop :=
  argv w' = argv w
  /\ cli_calls w' = cli_calls w
  /\ ticks w' = ticks w
  /\ exists records, log w' = log w ++ records.

(** An entry the per-item pass has left as it was: a tensor that is
    not sparse on which the transform raised [NotImplementedError]. *)
Definition entry_kept `{Torch} (fn : transform)
           (e : string * option Tensor) : Prop :=
  exists t msg,
    snd e = Some t /\ is_sparse t = false
    /\ fn t = Raise (Failure (NotImplementedError msg)).

(** What the per-item pass makes of an entry when it returns. *)
Definition entry_outcome `{Torch} (fn : transform)
           (e e' : string * option Tensor) : Prop :=
  entry_transformed fn e e' \/ (e' = e /\ entry_kept fn e).

(** A child whose only parameter is on the meta device. *)
Definition toy_child_meta : @Module mps_backend :=
  @mkModule mps_backend [("weight", Some (dense_meta 6))] [] [].

(** ** Loading the script (lines 16-31, 49, 96)

    What the script reads of the platform when it is loaded. *)
Class Platform : Type := {
  sys_version : string;        (* sys.version *)
  torch_version : string;      (* torch.__version__ *)
  mps_is_available : bool;     (* torch.backends.mps.is_available() *)
  mps_is_built : bool          (* torch.backends.mps.is_built() *)
}.

(** [str(b)] for a boolean. *)
Definition str_of_bool (b : bool) : string := if b then "True" else "False".

(** [os.environ]: names and values. *)
Definition environ : Type := list (string * string).

(** [os.environ[name]], [None] standing for [KeyError], and
    [os.environ[name] = value]. *)
Fixpoint environ_get (env : environ) (name : string) : option string :=
  match env with
  | [] => None
  | (k, v) :: rest => if k =? name then Some v else environ_get rest name
  end.

Fixpoint environ_set (env : environ) (name value : string) : environ :=
  match env with
  | [] => [(name, value)]
  | (k, v) :: rest =>
      if k =? name then (k, value) :: rest else (k, v) :: environ_set rest name value
  end.

(** The statements the script runs when it is loaded, up to the
    definition of [main]: the environment and the records logged. *)
Definition load_script `{Platform} (env : environ) : environ * list LogRecord :=
  let system_info :=
    [(INFO, Text ("Python version: " ++ sys_version));
     (INFO, Text ("PyTorch version: " ++ torch_version));
     (INFO, Text ("MPS available: " ++ str_of_bool mps_is_available));
     (INFO, Text ("MPS built: " ++ str_of_bool mps_is_built));
     (INFO, Text ("Running on device: " ++ (if mps_is_available then "mps" else "cpu")))] in
  let patches :=
    [(INFO, Text "Applied patch to torch.Tensor.to for sparse tensor handling");
     (INFO, Text "Applied patches for sparse tensor handling")] in
  if mps_is_available then
    let env1 := environ_set env "PYTORCH_ENABLE_MPS_STREAM" "1" in
    let env2 := environ_set env1 "PYTORCH_MPS_HIGH_WATERMARK_RATIO" "0.0" in
    (env2,
     system_info
     ++ [(INFO, Text "Enabled MPS compute streams for better parallelism");
         (INFO, Text "Set MPS memory optimization")]
     ++ patches)
  else (env, system_info ++ patches).
(** * Properties *)

(** ** The argument rewrite *)

(** A space-form flag at the very end still gets its value. *)
Example rewrite_args_trailing_flag :
  rewrite_args ["a.wav"; "--device"] = ["a.wav"; "--device"; "cpu"].
Proof. reflexivity. Qed.

Lemma rewrite_loop_acc (args : list string) :
  forall skip_next new_args,
    rewrite_loop args skip_next new_args
    = new_args ++ rewrite_loop args skip_next [].
Proof.
  induction args as [|arg rest IH]; intros skip_next new_args; simpl.
  - now rewrite app_nil_r.
  - destruct skip_next; [apply IH|].
    repeat match goal with
           | |- context [if ?b then _ else _] => destruct b
           end;
      rewrite IH; symmetry; rewrite IH; now rewrite app_assoc.
Qed.

(** One turn of the loop, without the accumulator. *)
Lemma rewrite_loop_cons (arg : string) (rest : list string) :
  rewrite_loop (arg :: rest) false []
  = if arg =? "--device" then "--device" :: "cpu" :: rewrite_loop rest true []
    else if startswith arg "--device=" then "--device=cpu" :: rewrite_loop rest false []
    else if arg =? "--fp16" then "--fp16" :: "False" :: rewrite_loop rest true []
    else if startswith arg "--fp16=" then "--fp16=False" :: rewrite_loop rest false []
    else arg :: rewrite_loop rest false [].
Proof.
  simpl.
  repeat match goal with
         | |- context [if ?b then _ else _] => destruct b
         end;
    now rewrite rewrite_loop_acc.
Qed.

Lemma rewrite_loop_skip (rest : list string) :
  rewrite_loop rest true [] = rewrite_args (tl rest).
Proof. destruct rest; reflexivity. Qed.

(** Join-form tokens, whatever their value. *)
Lemma device_join_tests (v : string) :
  ("--device=" ++ v =? "--device") = false /\
  startswith ("--device=" ++ v)%string "--device=" = true.
Proof. split; destruct v; reflexivity. Qed.

Lemma fp16_join_tests (v : string) :
  ("--fp16=" ++ v =? "--device") = false /\
  startswith ("--fp16=" ++ v)%string "--device=" = false /\
  ("--fp16=" ++ v =? "--fp16") = false /\
  startswith ("--fp16=" ++ v)%string "--fp16=" = true.
Proof. repeat split; destruct v; reflexivity. Qed.

Lemma device_join_not_fp16 (arg : string) :
  startswith arg "--device=" = true -> (arg =? "--fp16") = false.
Proof.
  intros Hp. destruct (arg =? "--fp16") eqn:E; [|reflexivity].
  apply String.eqb_eq in E. subst arg. discriminate Hp.
Qed.

(** The loop in the words of the rule: a flag gives its safe form, a
    space-form flag swallows the next argument, anything else is kept. *)
Lemma rewrite_args_cons (arg : string) (rest : list string) :
  rewrite_args (arg :: rest)
  = if is_space_flag arg then safe_form arg ++ rewrite_args (tl rest)
    else if is_join_flag arg then safe_form arg ++ rewrite_args rest
    else arg :: rewrite_args rest.
Proof.
  unfold rewrite_args at 1. rewrite rewrite_loop_cons, rewrite_loop_skip.
  unfold is_space_flag, is_join_flag, safe_form.
  destruct (arg =? "--device") eqn:E1; [reflexivity|].
  destruct (startswith arg "--device=") eqn:E2.
  - now rewrite (device_join_not_fp16 arg E2).
  - destruct (arg =? "--fp16") eqn:E3; [reflexivity|].
    destruct (startswith arg "--fp16="); reflexivity.
Qed.

(** C4: the two examples of the specification, and the rule behind
    them: a space-form flag is replaced together with the value token
    after it, a join-form flag is replaced in place, every other
    argument is emitted as it is, in order. *)
Theorem rewrite_args_examples :
  rewrite_args ["--device"; "mps"; "--fp16"; "True"; "input.wav"]
  = ["--device"; "cpu"; "--fp16"; "False"; "input.wav"]
  /\ rewrite_args ["--device=mps"; "--fp16=True"] = ["--device=cpu"; "--fp16=False"]
  /\ (forall value rest,
         rewrite_args ("--device" :: value :: rest)
         = "--device" :: "cpu" :: rewrite_args rest)
  /\ (forall value rest,
         rewrite_args ("--fp16" :: value :: rest)
         = "--fp16" :: "False" :: rewrite_args rest)
  /\ (forall value rest,
         rewrite_args (("--device=" ++ value)%string :: rest)
         = "--device=cpu" :: rewrite_args rest)
  /\ (forall value rest,
         rewrite_args (("--fp16=" ++ value)%string :: rest)
         = "--fp16=False" :: rewrite_args rest)
  /\ (forall arg rest,
         rewrite_args (arg :: rest)
         = if is_space_flag arg || is_join_flag arg
           then safe_form arg ++ rewrite_args (if is_space_flag arg then tl rest else rest)
           else arg :: rewrite_args rest).
Proof.
  split; [reflexivity|]. split; [reflexivity|].
  split; [intros; now rewrite rewrite_args_cons|].
  split; [intros; now rewrite rewrite_args_cons|].
  split.
  { intros value rest. rewrite rewrite_args_cons.
    unfold is_space_flag, is_join_flag, safe_form.
    destruct (device_join_tests value) as [-> ->].
    now destruct value. }
  split.
  { intros value rest. rewrite rewrite_args_cons.
    unfold is_space_flag, is_join_flag, safe_form.
    destruct (fp16_join_tests value) as (-> & -> & -> & ->).
    reflexivity. }
  intros arg rest. rewrite rewrite_args_cons.
  destruct (is_space_flag arg); [reflexivity|].
  destruct (is_join_flag arg); reflexivity.
Qed.

(** Rewriting what the loop produced, from either loop state, gives it
    back. *)
Lemma rewrite_args_fixes_loop (args : list string) :
  forall skip_next,
    rewrite_args (rewrite_loop args skip_next [])
    = rewrite_loop args skip_next [].
Proof.
  induction args as [|arg rest IH]; intros skip_next; [reflexivity|].
  destruct skip_next; [exact (IH false)|].
  rewrite rewrite_loop_cons.
  destruct (arg =? "--device") eqn:E1.
  { unfold rewrite_args. rewrite rewrite_loop_cons. simpl (_ =? _).
    cbv iota. simpl (rewrite_loop (_ :: _) true []).
    f_equal. f_equal. apply IH. }
  destruct (startswith arg "--device=") eqn:E2.
  { unfold rewrite_args. rewrite rewrite_loop_cons.
    change ("--device=cpu" =? "--device") with false.
    change (startswith "--device=cpu" "--device=") with true.
    cbv iota. f_equal. apply IH. }
  destruct (arg =? "--fp16") eqn:E3.
  { unfold rewrite_args. rewrite rewrite_loop_cons.
    change ("--fp16" =? "--device") with false.
    change (startswith "--fp16" "--device=") with false.
    change ("--fp16" =? "--fp16") with true.
    cbv iota. simpl (rewrite_loop (_ :: _) true []).
    f_equal. f_equal. apply IH. }
  destruct (startswith arg "--fp16=") eqn:E4.
  { unfold rewrite_args. rewrite rewrite_loop_cons.
    change ("--fp16=False" =? "--device") with false.
    change (startswith "--fp16=False" "--device=") with false.
    change ("--fp16=False" =? "--fp16") with false.
    change (startswith "--fp16=False" "--fp16=") with true.
    cbv iota. f_equal. apply IH. }
  unfold rewrite_args. rewrite rewrite_loop_cons, E1, E2, E3, E4.
  f_equal. apply IH.
Qed.

(** C6: the rewrite leaves the already-CPU list of the specification
    as it is, and on every argument list a second rewrite changes
    nothing. *)
Theorem rewrite_args_idempotent :
  rewrite_args ["--device"; "cpu"; "--fp16"; "False"]
  = ["--device"; "cpu"; "--fp16"; "False"]
  /\ forall args, rewrite_args (rewrite_args args) = rewrite_args args.
Proof.
  split; [reflexivity|].
  intros args. apply rewrite_args_fixes_loop.
Qed.

Lemma frame_from (args : list string) :
  forall consumed,
    Interleave (untouched_from consumed args)
               (replacements_from consumed args)
               (rewrite_loop args consumed []).
Proof.
  induction args as [|arg rest IH]; intros consumed; [constructor|].
  destruct consumed; [exact (IH false)|].
  rewrite rewrite_loop_cons. simpl.
  unfold is_space_flag, is_join_flag, safe_form.
  destruct (arg =? "--device") eqn:E1; simpl.
  { do 2 apply Interleave_right. apply IH. }
  destruct (startswith arg "--device=") eqn:E2; simpl.
  { rewrite (device_join_not_fp16 arg E2). simpl.
    apply Interleave_right. apply IH. }
  destruct (arg =? "--fp16") eqn:E3; simpl.
  { do 2 apply Interleave_right. apply IH. }
  destruct (startswith arg "--fp16=") eqn:E4; simpl.
  { apply Interleave_right. apply IH. }
  apply Interleave_left. apply IH.
Qed.

(** C5: for every argument list, the output of the rewrite is made of
    the arguments that are neither one of the two flags nor a value
    consumed by a space-form flag, unchanged and in their original
    order, shuffled with the safe forms of the flags that occur; at
    each position, a flag gives its safe form (a space-form flag taking
    the next token with it) and any other argument gives itself. *)
Theorem rewrite_args_frame (args : list string) :
  Interleave (untouched args) (replacements args) (rewrite_args args)
  /\ forall arg rest,
       rewrite_args (arg :: rest)
       = if is_space_flag arg then safe_form arg ++ rewrite_args (tl rest)
         else if is_join_flag arg then safe_form arg ++ rewrite_args rest
         else arg :: rewrite_args rest.
Proof.
  split; [apply frame_from | apply rewrite_args_cons].
Qed.

(** ** The transfer guard *)

Section TransferGuard.
Context `{Torch}.

Lemma patched_to_returned (T : Tensor) (P : ToArgs) (w : World) (r : Tensor) :
  _original_to T P = Return r -> patched_to T P w = (Return r, w).
Proof.
  intros E. unfold patched_to, try_except, lift. now rewrite E.
Qed.

Lemma patched_to_not_caught (T : Tensor) (P : ToArgs) (w : World) (e : raised) :
  _original_to T P = Raise e ->
  is_NotImplementedError e = false ->
  patched_to T P w = (Raise e, w).
Proof.
  intros E Hk. unfold patched_to, try_except, lift. rewrite E.
  destruct e as [[msg|ty msg]|code]; try reflexivity. discriminate Hk.
Qed.

Lemma patched_to_dense (T : Tensor) (P : ToArgs) (w : World) :
  is_sparse T = false -> fst (patched_to T P w) = _original_to T P.
Proof.
  intros Hd. unfold patched_to, try_except, lift.
  destruct (_original_to T P) as [r|[[msg|ty msg]|code]]; try reflexivity.
  now rewrite Hd.
Qed.

Lemma patched_to_sparse (T D : Tensor) (P : ToArgs) (w : World) (msg : string) :
  is_sparse T = true ->
  _original_to T P = Raise (Failure (NotImplementedError msg)) ->
  to_dense T = Return D ->
  patched_to T P w
  = (_original_to D P,
     mkWorld (argv w)
       (log w ++ [(WARNING,
                   Text ("Converting sparse tensor to dense for MPS compatibility: " ++ msg))])
       (cli_calls w) (ticks w)).
Proof.
  intros Hs E Hd. unfold patched_to, try_except, lift. rewrite E, Hs.
  unfold bind, logger. now rewrite Hd.
Qed.

(** C1: when the direct transfer of a sparse tensor raises the
    unsupported-operation failure, the guard logs one warning and
    gives what the transfer of the densified tensor with the same
    parameters gives, be it a value or a failure (one retry, not
    guarded again); a failure of another class, or any failure on a
    tensor that is not sparse, is raised again as it is; on a tensor
    that is not sparse the guard gives exactly what the unpatched call
    gives. *)
Theorem patched_to_correct (T : Tensor) (P : ToArgs) (w : World) :
  (forall msg D,
      is_sparse T = true ->
      _original_to T P = Raise (Failure (NotImplementedError msg)) ->
      to_dense T = Return D ->
      patched_to T P w
      = (_original_to D P,
         mkWorld (argv w)
           (log w ++ [(WARNING,
                       Text ("Converting sparse tensor to dense for MPS compatibility: "
                             ++ msg))])
           (cli_calls w) (ticks w)))
  /\ (forall e,
        _original_to T P = Raise e ->
        is_NotImplementedError e = false \/ is_sparse T = false ->
        fst (patched_to T P w) = Raise e)
  /\ (is_sparse T = false -> fst (patched_to T P w) = _original_to T P).
Proof.
  split; [|split].
  - intros msg D. apply patched_to_sparse.
  - intros e E [Hk|Hd].
    + now rewrite (patched_to_not_caught T P w e E Hk).
    + now rewrite (patched_to_dense T P w Hd).
  - apply patched_to_dense.
Qed.
End TransferGuard.

(** The three cases of C1 on the MPS-like backend: a sparse tensor sent
    to ["mps"], a sparse tensor sent to an unknown device, a dense
    tensor sent to ["mps"]. *)
Lemma patched_to_correct_witness :
  fst (@patched_to mps_backend (mk_toy true "cpu" false 7) "mps" (start []))
  = Return (mk_toy false "mps" false 7)
  /\ fst (@patched_to mps_backend (mk_toy true "cpu" false 7) "tpu" (start []))
     = Raise (Failure (OtherError "RuntimeError" "Invalid device string: tpu"))
  /\ fst (@patched_to mps_backend (mk_toy false "cpu" false 7) "mps" (start []))
     = Return (mk_toy false "mps" false 7).
Proof.
  split; [|split].
  - exact (f_equal fst
             (proj1 (@patched_to_correct mps_backend (mk_toy true "cpu" false 7) "mps" (start []))
                    sparse_coo_message (mk_toy false "cpu" false 7) eq_refl eq_refl eq_refl)).
  - exact (proj1 (proj2 (@patched_to_correct mps_backend (mk_toy true "cpu" false 7) "tpu" (start [])))
                 _ eq_refl (or_introl eq_refl)).
  - exact (proj2 (proj2 (@patched_to_correct mps_backend (mk_toy false "cpu" false 7) "mps" (start [])))
                 eq_refl).
Defined.

(** ** The entry point *)

Lemma list_remove_in (x : string) (l : list string) :
  list_in x l = true -> exists l', list_remove x l = Some l'.
Proof.
  induction l as [|y rest IH]; simpl; [discriminate|].
  rewrite String.eqb_sym. destruct (y =? x); [now eexists|].
  simpl. intros Hin. destruct (IH Hin) as [l' ->]. now eexists.
Qed.

Section EntryPoint.
Context `{Whisper} `{Clock}.

(** What [main] does, by what the first call of [cli()] does: a value
    or a [SystemExit] goes through; so does a failure other than the
    sparse one; the sparse one leads to one more call, on the
    rewritten [sys.argv], whose outcome is the outcome of [main]. *)
Lemma main_run (w : World) :
  let n := length (cli_calls w) in
  let d := delegated_argv (argv w) in
  match cli n d with
  | Raise (Failure (NotImplementedError msg)) =>
      if str_contains sparse_marker msg then
        match d with
        | argv0 :: args =>
            let d' := argv0 :: rewrite_args args in
            fst (main w) = cli (S n) d'
            /\ cli_calls (snd (main w)) = cli_calls w ++ [d; d']
            /\ argv (snd (main w)) = d'
        | [] =>
            fst (main w)
            = Raise (Failure (OtherError "IndexError" "list index out of range"))
            /\ cli_calls (snd (main w)) = cli_calls w ++ [d]
            /\ argv (snd (main w)) = d
        end
      else
        fst (main w) = Raise (Failure (NotImplementedError msg))
        /\ cli_calls (snd (main w)) = cli_calls w ++ [d]
        /\ argv (snd (main w)) = d
  | r =>
      fst (main w) = r
      /\ cli_calls (snd (main w)) = cli_calls w ++ [d]
      /\ argv (snd (main w)) = d
  end.
Proof.
  intros n d. subst n d. unfold delegated_argv.
  cbv beta iota delta [main argv_remove benchmark_transcription force_cpu_argv
                  call_cli now bind try_except get_argv set_argv logger
                  ret raise].
  destruct (using_mps (argv w)); cbn [argv log cli_calls ticks];
    (destruct (list_in "--benchmark" (argv w)) eqn:Hb;
     cbn [argv log cli_calls ticks];
     [destruct (list_remove_in _ _ Hb) as [a' Ha']; rewrite Ha';
      cbn [argv log cli_calls ticks];
      destruct (cli (length (cli_calls w)) a') as [v|[[msg|ty msg]|c]]
     |destruct (cli (length (cli_calls w)) (argv w)) as [v|[[msg|ty msg]|c]]];
     cbn [argv log cli_calls ticks fst snd];
     try (repeat split; reflexivity);
     (match goal with
      | |- context [str_contains sparse_marker ?m] =>
          destruct (str_contains sparse_marker m);
          cbn [argv log cli_calls ticks fst snd];
          [|repeat split; reflexivity]
      end);
     (match goal with
      | |- context [match ?l with [] => _ | _ :: _ => _ end] =>
          destruct l as [|argv0 args];
          cbn [argv log cli_calls ticks fst snd tl app];
          [repeat split; reflexivity|]
      end);
     rewrite length_app, Nat.add_1_r; cbn [length];
     rewrite <- app_assoc; repeat split; reflexivity).
Qed.
End EntryPoint.

Section ExitCode.
Context `{Whisper} `{Clock}.

(** The outcome of [main] is the outcome of one of the (at most two)
    calls of [cli()], or a failure. *)
Lemma main_outcome (w : World) :
  (exists n a, fst (main w) = cli n a)
  \/ exists f, fst (main w) = Raise (Failure f).
Proof.
  pose proof (main_run w) as Hrun. cbv zeta in Hrun.
  destruct (cli (length (cli_calls w)) (delegated_argv (argv w)))
    as [v|[[msg|ty msg]|c]] eqn:E.
  - left. exists (length (cli_calls w)), (delegated_argv (argv w)).
    rewrite E. apply Hrun.
  - destruct (str_contains sparse_marker msg).
    + destruct (delegated_argv (argv w)) as [|argv0 args].
      * right. eexists. apply Hrun.
      * left. do 2 eexists. apply Hrun.
    + right. eexists. apply Hrun.
  - right. eexists. apply Hrun.
  - left. exists (length (cli_calls w)), (delegated_argv (argv w)).
    rewrite E. apply Hrun.
Qed.

(** [main] calls [cli()] once or twice. *)
Lemma main_calls (w : World) :
  length (cli_calls (snd (main w))) = S (length (cli_calls w))
  \/ length (cli_calls (snd (main w))) = S (S (length (cli_calls w))).
Proof.
  pose proof (main_run w) as Hrun. cbv zeta in Hrun.
  destruct (cli (length (cli_calls w)) (delegated_argv (argv w)))
    as [v|[[msg|ty msg]|c]];
    try (left; destruct Hrun as (_ & -> & _);
         rewrite length_app; simpl; lia).
  destruct (str_contains sparse_marker msg);
    [destruct (delegated_argv (argv w)) as [|argv0 args]|];
    [left|right|left]; destruct Hrun as (_ & -> & _);
    rewrite length_app; simpl; lia.
Qed.

(** The exit code of the process, by the outcome of [main]. *)
Lemma run_script_exit_code (w : World) :
  fst (run_script w)
  = match fst (main w) with
    | Return v => exit_code_of v
    | Raise (Failure _) => 1%Z
    | Raise (SystemExit code) => exit_code_of code
    end
  /\ cli_calls (snd (run_script w)) = cli_calls (snd (main w))
  /\ argv (snd (run_script w)) = argv (snd (main w)).
Proof.
  unfold run_script, script_body, try_except, bind, sys_exit, raise, logger.
  destruct (main w) as [[v|[f|c]] w']; simpl; repeat split; reflexivity.
Qed.
End ExitCode.

Section Retry.
Context `{Whisper} `{Clock}.

(** C8: when the first run fails with the sparse error and the run
    on the rewritten arguments fails too, for whatever reason, the
    sparse error included, that second failure is the outcome of
    [main]: [cli()] has been called exactly twice, [sys.argv] has
    been rewritten once, and the process exits with code 1.  In no
    case does [main] call [cli()] more than twice. *)
Theorem main_retries_once (w : World) (argv0 : string) (args : list string)
        (msg : string) (f : failure) :
  delegated_argv (argv w) = argv0 :: args ->
  cli (length (cli_calls w)) (argv0 :: args)
  = Raise (Failure (NotImplementedError msg)) ->
  str_contains sparse_marker msg = true ->
  cli (S (length (cli_calls w))) (argv0 :: rewrite_args args)
  = Raise (Failure f) ->
  fst (main w) = Raise (Failure f)
  /\ cli_calls (snd (main w))
     = cli_calls w ++ [argv0 :: args; argv0 :: rewrite_args args]
  /\ argv (snd (main w)) = argv0 :: rewrite_args args
  /\ fst (run_script w) = 1%Z
  /\ cli_calls (snd (run_script w)) = cli_calls (snd (main w))
  /\ forall w0, length (cli_calls (snd (main w0))) <= length (cli_calls w0) + 2.
Proof.
  intros Hd E1 Hm E2.
  pose proof (main_run w) as Hrun. cbv zeta in Hrun.
  rewrite Hd, E1, Hm in Hrun. destruct Hrun as (Hr & Hc & Ha).
  rewrite E2 in Hr.
  destruct (run_script_exit_code w) as (Hx & Hxc & _).
  rewrite Hr in Hx.
  repeat split; try assumption.
  intros w0. destruct (main_calls w0) as [-> | ->]; lia.
Qed.
End Retry.

(** C8 on a command line that meets the sparse error on every device:
    the run on ["--device"; "mps"] fails, the run on ["--device"; "cpu"]
    fails again, and that is the end. *)
Lemma main_retries_once_witness :
  let w := start ["whisper_mps.py"; "--device"; "mps"; "audio.wav"] in
  fst (@main (toy_whisper broken_cli) toy_clock w)
  = Raise (Failure (NotImplementedError sparse_coo_message))
  /\ cli_calls (snd (@main (toy_whisper broken_cli) toy_clock w))
     = [["whisper_mps.py"; "--device"; "mps"; "audio.wav"];
        ["whisper_mps.py"; "--device"; "cpu"; "audio.wav"]]
  /\ fst (@run_script (toy_whisper broken_cli) toy_clock w) = 1%Z.
Proof.
  intros w.
  destruct (@main_retries_once (toy_whisper broken_cli) toy_clock w
              "whisper_mps.py" ["--device"; "mps"; "audio.wav"]
              sparse_coo_message (NotImplementedError sparse_coo_message)
              eq_refl eq_refl eq_refl eq_refl)
    as (Hr & Hc & _ & Hx & _).
  split; [exact Hr|]. split; [exact Hc|exact Hx].
Defined.


Lemma plain_cli_outcomes (n : nat) (a : list string) :
  plain_cli n a = Return VNone \/ exists f, plain_cli n a = Raise (Failure f).
Proof.
  unfold plain_cli. destruct (using_mps a); [right; eexists|left]; reflexivity.
Qed.

Section ExitCodes.
Context `{Whisper} `{Clock}.

(** C10, amended: the exit code is the one [sys.exit] makes of the
    value [main] returns, 1 when a failure leaves [main], and the code
    of a [SystemExit] that goes through [main]; in particular a value
    the first run of the wrapped command line returns, or a
    [SystemExit] it raises, sets the exit code itself.  When the
    wrapped command line returns [None] whenever it returns and raises
    nothing but failures, the exit code is 0 when the run succeeds, it
    is 1 exactly when a failure reaches the top level after the one
    retry, and there is no other exit code. *)
Theorem exit_code_zero_or_one (w : World) :
  fst (run_script w)
  = match fst (main w) with
    | Return v => exit_code_of v
    | Raise (Failure _) => 1%Z
    | Raise (SystemExit code) => exit_code_of code
    end
  /\ (forall v,
         cli (length (cli_calls w)) (delegated_argv (argv w)) = Return v ->
         fst (run_script w) = exit_code_of v)
  /\ (forall code,
         cli (length (cli_calls w)) (delegated_argv (argv w)) = Raise (SystemExit code) ->
         fst (run_script w) = exit_code_of code)
  /\ ((forall n a, cli n a = Return VNone \/ exists f, cli n a = Raise (Failure f)) ->
      (forall v, fst (main w) = Return v -> fst (run_script w) = 0%Z)
      /\ (fst (run_script w) = 1%Z <-> exists f, fst (main w) = Raise (Failure f))
      /\ (fst (run_script w) = 0%Z \/ fst (run_script w) = 1%Z)).
Proof.
  destruct (run_script_exit_code w) as (Hx & _).
  pose proof (main_run w) as Hrun. cbv zeta in Hrun.
  split; [exact Hx|]. split; [|split].
  - intros v E. rewrite E in Hrun. destruct Hrun as (Hr & _).
    now rewrite Hx, Hr.
  - intros code E. rewrite E in Hrun. destruct Hrun as (Hr & _).
    now rewrite Hx, Hr.
  - intros Hcli.
    assert (Hm : fst (main w) = Return VNone
                 \/ exists f, fst (main w) = Raise (Failure f)).
    { destruct (main_outcome w) as [(n & a & E)|Hf]; [|now right].
      rewrite E. apply Hcli. }
    split; [|split].
    + intros v Hv. destruct Hm as [Hn|[f Hf]].
      * now rewrite Hx, Hn.
      * rewrite Hf in Hv. discriminate Hv.
    + split.
      * intros H1. destruct Hm as [Hn|Hf]; [|exact Hf].
        rewrite Hx, Hn in H1. discriminate H1.
      * intros [f Hf]. now rewrite Hx, Hf.
    + destruct Hm as [Hn|[f Hf]];
        [left; now rewrite Hx, Hn|right; now rewrite Hx, Hf].
Qed.
End ExitCodes.

(** C10 on a command line that only returns [None] or fails: on the
    CPU the run succeeds and the exit code is 0; and on a command line
    with argparse, started without an audio file: the exit code is the
    2 of its [SystemExit]. *)
Lemma exit_code_zero_or_one_witness :
  fst (@run_script (toy_whisper plain_cli) toy_clock
         (start ["whisper_mps.py"; "audio.wav"])) = 0%Z
  /\ fst (@run_script (toy_whisper mps_cli) toy_clock (start ["whisper_mps.py"]))
     = exit_code_of (VInt 2)
  /\ fst (@run_script (toy_whisper mps_cli) toy_clock
            (start ["whisper_mps.py"; "audio.wav"]))
     = exit_code_of VNone.
Proof.
  split; [|split].
  - exact (proj1 (proj2 (proj2 (proj2
             (@exit_code_zero_or_one (toy_whisper plain_cli) toy_clock
                (start ["whisper_mps.py"; "audio.wav"]))))
             plain_cli_outcomes)
           VNone eq_refl).
  - exact (proj1 (proj2 (proj2
             (@exit_code_zero_or_one (toy_whisper mps_cli) toy_clock
                (start ["whisper_mps.py"]))))
           (VInt 2) eq_refl).
  - exact (proj1 (proj2
             (@exit_code_zero_or_one (toy_whisper mps_cli) toy_clock
                (start ["whisper_mps.py"; "audio.wav"])))
           VNone eq_refl).
Defined.

(** C10 as stated fails: started without an audio file, the wrapped
    command line leaves through [SystemExit(2)], which no [except
    Exception] clause catches, and the exit code is 2. *)
Lemma usage_error_exits_with_2 :
  fst (@main (toy_whisper mps_cli) toy_clock (start ["whisper_mps.py"]))
  = Raise (SystemExit (VInt 2))
  /\ fst (@run_script (toy_whisper mps_cli) toy_clock (start ["whisper_mps.py"])) = 2%Z
  /\ 2%Z <> 0%Z /\ 2%Z <> 1%Z.
Proof.
  repeat split; try reflexivity; discriminate.
Qed.

(** ** Benchmark mode *)

Lemma list_in_count (x : string) (l : list string) :
  list_in x l = negb (count_occ string_dec l x =? 0)%nat.
Proof.
  induction l as [|y rest IH]; simpl; [reflexivity|].
  destruct (string_dec y x) as [->|Hne].
  - now rewrite String.eqb_refl.
  - rewrite IH. destruct (String.eqb_spec x y); [congruence|reflexivity].
Qed.

Lemma list_remove_count (x : string) (l l' : list string) :
  list_remove x l = Some l' ->
  count_occ string_dec l x = S (count_occ string_dec l' x).
Proof.
  revert l'. induction l as [|y rest IH]; intros l'; simpl; [discriminate|].
  destruct (String.eqb_spec y x) as [->|Hne].
  - intros [= <-]. destruct (string_dec x x); congruence.
  - destruct (list_remove x rest) as [rest'|]; [|discriminate].
    intros [= <-]. simpl.
    destruct (string_dec y x); [congruence|]. now apply IH.
Qed.

(** The flag is gone from what [cli()] finds exactly when it occurred
    at most once. *)
Lemma delegated_argv_flag (a : list string) :
  list_in "--benchmark" (delegated_argv a)
  = (1 <? count_occ string_dec a "--benchmark")%nat.
Proof.
  unfold delegated_argv.
  destruct (list_in "--benchmark" a) eqn:Hin.
  - destruct (list_remove_in _ _ Hin) as [a' Ha']. rewrite Ha'.
    rewrite (list_remove_count _ _ _ Ha'), list_in_count.
    now destruct (count_occ string_dec a' "--benchmark").
  - rewrite Hin. rewrite list_in_count in Hin.
    now destruct (count_occ string_dec a "--benchmark") as [|[|k]].
Qed.

(** C9 fails on an argument list with the flag twice:
    [sys.argv.remove] takes out the first occurrence only, the wrapped
    command line is called with the second one still in [sys.argv], and
    (argparse not knowing the flag) the process exits with code 2. *)
Lemma benchmark_flag_twice_reaches_cli :
  let w := start ["whisper_mps.py"; "--benchmark"; "--benchmark"; "audio.wav"] in
  cli_calls (snd (@main (toy_whisper mps_cli) toy_clock w))
  = [["whisper_mps.py"; "--benchmark"; "audio.wav"]]
  /\ fst (@run_script (toy_whisper mps_cli) toy_clock w) = 2%Z
  /\ log (snd (@main (toy_whisper mps_cli) toy_clock w))
     = [(INFO, TextArgv "Starting whisper_mps with args: "
                 ["whisper_mps.py"; "--benchmark"; "--benchmark"; "audio.wav"]);
        (INFO, Text "Running with CPU");
        (INFO, Text "Running in benchmark mode")].
Proof.
  repeat split; reflexivity.
Qed.

Section Benchmark.
Context `{Whisper} `{Clock}.

(** What [benchmark_transcription] logs around a call of [cli()] that
    returns: the difference of the two clock readings. *)
Lemma benchmark_logs_duration (w : World) (v : pyval) :
  cli (length (cli_calls w)) (argv w) = Return v ->
  fst (benchmark_transcription call_cli w)
  = Return (v, (time_time (S (ticks w)) - time_time (ticks w))%Z)
  /\ log (snd (benchmark_transcription call_cli w))
     = log w ++ [(INFO, TextSeconds "Transcription completed in "
                          (time_time (S (ticks w)) - time_time (ticks w))%Z
                          " seconds")].
Proof.
  intros E.
  cbv beta iota delta [benchmark_transcription call_cli now bind logger ret].
  cbn [argv log cli_calls ticks]. rewrite E. split; reflexivity.
Qed.
End Benchmark.

(** ** The module apply guard *)

Section ModuleGuard.
Context `{TorchModule}.

Lemma dict_set_at (pre rest : dict) (key : string) (old v : option Tensor) :
  ~ In key (map fst pre) ->
  dict_set (pre ++ (key, old) :: rest) key v = pre ++ (key, v) :: rest.
Proof.
  induction pre as [|[k x] pre IH]; simpl; intros Hni.
  - now rewrite String.eqb_refl.
  - destruct (String.eqb_spec k key) as [->|Hne].
    + exfalso. apply Hni. now left.
    + f_equal. apply IH. intros Hin. apply Hni. now right.
Qed.

Lemma key_not_before (pre rest : dict) (key : string) (x : option Tensor) :
  NoDup (map fst (pre ++ (key, x) :: rest)) -> ~ In key (map fst pre).
Proof.
  rewrite map_app. simpl. intros Hnd Hin.
  apply NoDup_remove_2 in Hnd. apply Hnd, in_or_app. now left.
Qed.

Lemma keys_after_set (pre rest : dict) (key : string) (x y : option Tensor) :
  map fst (pre ++ (key, y) :: rest) = map fst (pre ++ (key, x) :: rest).
Proof. now rewrite !map_app. Qed.

(** The per-item loop over a whole dictionary: when every entry
    passes, every entry is replaced by its transform, none is skipped
    and the loop returns. *)
Lemma apply_items_all (what : string) (fn : transform) (items : dict) :
  forall (pre : dict) (w : World),
    NoDup (map fst (pre ++ items)) ->
    Forall (entry_passes fn) items ->
    exists items' w',
      apply_items what fn items (pre ++ items) w = (Return (pre ++ items'), w')
      /\ Forall2 (entry_transformed fn) items items'.
Proof.
  induction items as [|[key [t|]] rest IH]; intros pre w Hnd Hall.
  - exists [], w. split; [reflexivity|constructor].
  - inversion Hall as [|? ? Hhead Hrest]; subst.
    destruct Hhead as [t' Ht].
    pose proof (key_not_before _ _ _ _ Hnd) as Hni.
    assert (Hstep : forall w1,
               exists items' w',
                 apply_items what fn rest (pre ++ (key, Some t') :: rest) w1
                 = (Return (pre ++ (key, Some t') :: items'), w')
                 /\ Forall2 (entry_transformed fn) rest items').
    { intros w1.
      destruct (IH (pre ++ [(key, Some t')]) w1) as (items' & w' & E & F).
      - rewrite <- app_assoc. simpl.
        rewrite (keys_after_set pre rest key (Some t) (Some t')). exact Hnd.
      - exact Hrest.
      - rewrite <- !app_assoc in E. simpl in E. now exists items', w'. }
    destruct Ht as [Hdirect|(Hs & [msg Hr] & dense & Hd & Hfd)].
    + destruct (Hstep w) as (items' & w' & E & F).
      exists ((key, Some t') :: items'), w'. split.
      * simpl. unfold bind, try_except, lift, ret. rewrite Hdirect.
        rewrite (dict_set_at pre rest key (Some t) (Some t') Hni). exact E.
      * constructor; [|exact F]. split; [reflexivity|]. now left.
    + destruct (Hstep (mkWorld (argv w)
                         (log w ++ [(INFO, Text ("Converting sparse " ++ what
                                                  ++ " to dense: " ++ key))])
                         (cli_calls w) (ticks w)))
        as (items' & w' & E & F).
      exists ((key, Some t') :: items'), w'. split.
      * simpl. unfold bind, try_except, lift, ret, logger. rewrite Hr, Hs, Hd, Hfd.
        rewrite (dict_set_at pre rest key (Some t) (Some t') Hni). exact E.
      * constructor; [|exact F]. split; [reflexivity|]. right.
        split; [exact Hs|]. split; [now exists msg|]. now exists dense.
  - inversion Hall as [|? ? _ Hrest]; subst.
    destruct (IH (pre ++ [(key, None)]) w) as (items' & w' & E & F).
    + now rewrite <- app_assoc.
    + exact Hrest.
    + rewrite <- !app_assoc in E. simpl in E.
      exists ((key, None) :: items'), w'. split; [exact E|].
      constructor; [|exact F]. now split.
Qed.

(** The loop over the children: when the method returns on each of
    them, it is called on each of them, in order. *)
Lemma apply_children_all (_apply : Module -> transform -> M Module)
      (fn : transform) (cs : list Module) :
  (forall c, In c cs -> forall w, exists c' w', _apply c fn w = (Return c', w')) ->
  forall w,
    exists cs' w',
      apply_children _apply fn cs w = (Return cs', w')
      /\ Forall2 (fun c c' => exists w1 w2, _apply c fn w1 = (Return c', w2)) cs cs'.
Proof.
  induction cs as [|c rest IH]; intros Hret w.
  - exists [], w. split; [reflexivity|constructor].
  - destruct (Hret c (or_introl eq_refl) w) as (c' & w1 & Ec).
    destruct (IH (fun c0 Hin => Hret c0 (or_intror Hin)) w1) as (cs' & w2 & Er & F).
    exists (c' :: cs'), w2. split.
    + simpl. unfold bind, ret. now rewrite Ec, Er.
    + constructor; [now exists w, w1|exact F].
Qed.

(** The fallback pass of [patched_apply]. *)
Lemma patched_apply_fallback (_apply : Module -> transform -> M Module)
      (self left : Module) (fn : transform) (msg : string) (w : World) :
  _original_apply self fn = BulkRaised (Failure (NotImplementedError msg)) left ->
  str_contains sparse_marker msg = true ->
  NoDup (map fst (_parameters left)) ->
  NoDup (map fst (_buffers left)) ->
  Forall (entry_passes fn) (_parameters left) ->
  Forall (entry_passes fn) (_buffers left) ->
  (forall c, In c (children left) ->
             forall w0, exists c' w', _apply c fn w0 = (Return c', w')) ->
  exists params bufs cs w',
    patched_apply _apply self fn w = (Return (mkModule params bufs cs), w')
    /\ Forall2 (entry_transformed fn) (_parameters left) params
    /\ Forall2 (entry_transformed fn) (_buffers left) bufs
    /\ Forall2 (fun c c' => exists w1 w2, _apply c fn w1 = (Return c', w2))
               (children left) cs.
Proof.
  intros Hbulk Hm Hndp Hndb Hp Hb Hc.
  unfold patched_apply. rewrite Hbulk, Hm.
  unfold bind at 1. unfold logger at 1.
  destruct (apply_items_all "parameter" fn (_parameters left) []
              (mkWorld (argv w)
                 (log w ++ [(WARNING, Text ("Handling sparse tensor in Module._apply: " ++ msg))])
                 (cli_calls w) (ticks w)) Hndp Hp)
    as (params & w1 & Ep & Fp).
  destruct (apply_items_all "buffer" fn (_buffers left) [] w1 Hndb Hb)
    as (bufs & w2 & Eb & Fb).
  destruct (apply_children_all _apply fn (children left) Hc w2)
    as (cs & w3 & Ec & Fc).
  exists params, bufs, cs, w3. cbn [app] in Ep, Eb.
  unfold bind. rewrite Ep, Eb, Ec. repeat split; assumption.
Qed.
End ModuleGuard.


Section ModuleGuardClaim.
Context `{TorchModule}.

Lemma dense_entry_passes (fn : transform) (e : string * option Tensor) :
  dense_entry_ok fn e -> entry_passes fn e.
Proof.
  unfold dense_entry_ok, entry_passes. destruct (snd e) as [t|]; [|trivial].
  intros (_ & t' & Ht). exists t'. now left.
Qed.

(** C3: let the bulk transform raise the sparse error and leave a
    module with N parameters, exactly one of them sparse, and M
    buffers, where every tensor has a transformed value: the transform
    returns one on the dense parameters, refuses the sparse parameter
    and returns one on its dense form, and each buffer has one directly
    or, when it is sparse and refused, through its dense form; and let
    [_apply] return on every child.  Then the guard returns; it has
    given each of the N parameters and M buffers its transformed value
    (same names, same order, none skipped), the sparse parameter the
    transform of its dense form, and it has called [_apply] on every
    child. *)
Theorem module_guard_transforms_all
        (depth : nat) (self left : Module) (fn : transform) (msg : string)
        (w : World) (before after : dict) (key : string)
        (sparse dense result : Tensor) :
  _original_apply self fn = BulkRaised (Failure (NotImplementedError msg)) left ->
  str_contains sparse_marker msg = true ->
  _parameters left = before ++ (key, Some sparse) :: after ->
  NoDup (map fst (_parameters left)) ->
  NoDup (map fst (_buffers left)) ->
  is_sparse sparse = true ->
  (exists msg', fn sparse = Raise (Failure (NotImplementedError msg'))) ->
  to_dense sparse = Return dense ->
  fn dense = Return result ->
  Forall (dense_entry_ok fn) (before ++ after) ->
  Forall (entry_passes fn) (_buffers left) ->
  (forall c, In c (children left) ->
             forall w0, exists c' w', Module__apply depth c fn w0 = (Return c', w')) ->
  exists params bufs cs w',
    Module__apply (S depth) self fn w = (Return (mkModule params bufs cs), w')
    /\ length params = length (_parameters left)
    /\ Forall2 (entry_transformed fn) (_parameters left) params
    /\ nth_error params (length before) = Some (key, Some result)
    /\ length bufs = length (_buffers left)
    /\ Forall2 (entry_transformed fn) (_buffers left) bufs
    /\ length cs = length (children left)
    /\ Forall2 (fun c c' => exists w1 w2, Module__apply depth c fn w1 = (Return c', w2))
               (children left) cs.
Proof.
  intros Hbulk Hm Hsplit Hndp Hndb Hs [msg' Hr] Hd Hfd Hdense Hb Hc.
  assert (Hp : Forall (entry_passes fn) (_parameters left)).
  { rewrite Hsplit. apply Forall_app in Hdense. destruct Hdense as [Hbe Ha].
    apply Forall_app. split.
    - eapply Forall_impl; [apply dense_entry_passes|exact Hbe].
    - constructor.
      + exists result. right. split; [exact Hs|]. split; [now exists msg'|].
        now exists dense.
      + eapply Forall_impl; [apply dense_entry_passes|exact Ha]. }
  destruct (patched_apply_fallback (Module__apply depth) self left fn msg w
              Hbulk Hm Hndp Hndb Hp Hb Hc)
    as (params & bufs & cs & w' & E & Fp & Fb & Fc).
  exists params, bufs, cs, w'.
  split; [exact E|].
  split; [symmetry; exact (Forall2_length Fp)|].
  split; [exact Fp|].
  split.
  { rewrite Hsplit in Fp.
    apply Forall2_app_inv_l in Fp.
    destruct Fp as (pb & pa & Fpb & Fpa & ->).
    inversion Fpa as [|? e' ? ? He _]; subst.
    rewrite nth_error_app2 by (rewrite (Forall2_length Fpb); lia).
    rewrite (Forall2_length Fpb), Nat.sub_diag. simpl.
    destruct e' as [k' [t'|]]; destruct He as [Hk Ht]; simpl in Hk, Ht;
      [|contradiction].
    subst k'. destruct Ht as [Hdirect|(_ & _ & dense0 & Hd0 & Hfd0)].
    - rewrite Hr in Hdirect. discriminate Hdirect.
    - rewrite Hd in Hd0. injection Hd0 as <-.
      rewrite Hfd in Hfd0. injection Hfd0 as <-. reflexivity. }
  split; [symmetry; exact (Forall2_length Fb)|].
  split; [exact Fb|].
  split; [symmetry; exact (Forall2_length Fc)|exact Fc].
Qed.

(** A failure of the bulk transform that is not the sparse error
    leaves the guard as it is, with nothing logged and no fallback
    pass. *)
Lemma patched_apply_propagates (_apply : Module -> transform -> M Module)
      (self left : Module) (fn : transform) (f : failure) (w : World) :
  _original_apply self fn = BulkRaised (Failure f) left ->
  has_marker f = false ->
  patched_apply _apply self fn w = (Raise (Failure f), w).
Proof.
  intros Hbulk Hm. unfold patched_apply. rewrite Hbulk.
  destruct f as [msg|ty msg]; [|reflexivity].
  unfold has_marker in Hm. simpl in Hm. now rewrite Hm.
Qed.

(** In the per-item loop, the unsupported-operation failure of the
    transform on a tensor that is not sparse is swallowed: the loop
    goes on with the dictionary and the globals as they were. *)
Lemma apply_items_drops_failure (what : string) (fn : transform)
      (key : string) (t : Tensor) (rest d : dict) (msg : string) (w : World) :
  fn t = Raise (Failure (NotImplementedError msg)) ->
  is_sparse t = false ->
  apply_items what fn ((key, Some t) :: rest) d w = apply_items what fn rest d w.
Proof.
  intros Hr Hd. simpl. unfold bind, try_except, lift, ret. now rewrite Hr, Hd.
Qed.
End ModuleGuardClaim.

(** C3 on the toy layer with a sparse buffer: the bulk transform stops
    at the sparse parameter ["indices"]; the guard moves the three
    parameters and the two buffers to ["mps"], ["indices"] and
    ["alignment_heads"] through their dense forms, leaves the [None]
    buffer, and visits the child. *)
Lemma module_guard_transforms_all_witness :
  exists params bufs cs w',
    @Module__apply mps_backend toy_modules 2 toy_layer_sparse_buffer
      (to_mps sparse_coo_message) (start [])
    = (Return (@mkModule mps_backend params bufs cs), w')
    /\ length params = 3
    /\ nth_error params 1 = Some ("indices", Some (mk_toy false "mps" false 2))
    /\ length bufs = 3
    /\ length cs = 1.
Proof.
  destruct (@module_guard_transforms_all mps_backend toy_modules
              1 toy_layer_sparse_buffer toy_layer_sparse_buffer
              (to_mps sparse_coo_message)
              sparse_coo_message (start [])
              [("weight", Some (dense_cpu 1))] [("bias", Some (dense_cpu 3))]
              "indices" (sparse_cpu 2) (dense_cpu 2) (mk_toy false "mps" false 2))
    as (params & bufs & cs & w' & E & Lp & _ & Hn & Lb & _ & Lc & _).
  - reflexivity.
  - reflexivity.
  - reflexivity.
  - simpl. repeat constructor; simpl; intuition discriminate.
  - simpl. repeat constructor; simpl; intuition discriminate.
  - reflexivity.
  - exists sparse_coo_message. reflexivity.
  - reflexivity.
  - reflexivity.
  - repeat constructor; simpl; eexists; reflexivity.
  - constructor; [|constructor; [|constructor; [exact I|constructor]]].
    + exists (mk_toy false "mps" false 7). right.
      split; [reflexivity|]. split; [exists sparse_coo_message; reflexivity|].
      exists (dense_cpu 7). split; reflexivity.
    + exists (mk_toy false "mps" false 4). left. reflexivity.
  - intros c [<-|[]] w0. do 2 eexists. reflexivity.
  - exists params, bufs, cs, w'. repeat split; assumption.
Defined.

(** C7 fails in the per-item handlers.  The transform is the unpatched
    transfer to ["mps"]; the layer has a sparse parameter and a dense
    one on the meta device.  The bulk transform raises the sparse
    error, so the guard makes its per-item pass; there the transform
    raises [NotImplementedError] on ["weight"], the handler of lines
    68-73 catches it, finds the tensor not sparse and does nothing: the
    guard returns, ["weight"] is left as it was, and the log holds no
    record of that failure. *)
Lemma per_item_failure_dropped :
  @_original_apply mps_backend toy_modules toy_layer_meta (to_mps sparse_coo_message)
  = BulkRaised (Failure (NotImplementedError sparse_coo_message)) toy_layer_meta
  /\ to_mps sparse_coo_message (dense_meta 1)
     = Raise (Failure (NotImplementedError "Cannot copy out of meta tensor; no data!"))
  /\ @Module__apply mps_backend toy_modules 2 toy_layer_meta
       (to_mps sparse_coo_message) (start [])
     = (Return (@mkModule mps_backend
                  [("indices", Some (mk_toy false "mps" false 2));
                   ("weight", Some (dense_meta 1))] [] []),
        mkWorld []
          [(WARNING, Text ("Handling sparse tensor in Module._apply: " ++ sparse_coo_message));
           (INFO, Text "Converting sparse parameter to dense: indices")]
          [] 0).
Proof.
  repeat split; reflexivity.
Qed.

(** C2 as stated fails at the transfer guard: the failure does not
    carry the operation name, yet the guard, which looks at the tensor
    and not at the message, densifies and retries. *)
Lemma transfer_guard_ignores_message :
  has_marker (NotImplementedError to_copy_message) = false
  /\ @_original_to other_backend (sparse_cpu 7) "mps"
     = Raise (Failure (NotImplementedError to_copy_message))
  /\ @patched_to other_backend (sparse_cpu 7) "mps" (start [])
     = (Return (mk_toy false "mps" false 7),
        mkWorld []
          [(WARNING, Text ("Converting sparse tensor to dense for MPS compatibility: "
                           ++ to_copy_message))]
          [] 0).
Proof.
  repeat split; reflexivity.
Qed.

Section Propagation.
Context `{TorchModule} `{Whisper} `{Clock}.

Lemma optimized_load_model_propagates
      (name : string) (device download_root : option string) (in_memory : bool)
      (e : raised) (w : World) :
  original_load_model name device download_root in_memory = Raise e ->
  fst (optimized_load_model name device download_root in_memory w) = Raise e.
Proof.
  intros E. unfold optimized_load_model, bind, now, logger, lift.
  cbn [argv log cli_calls ticks]. now rewrite E.
Qed.

(** C2, amended: a failure whose message does not contain the
    operation name goes unchanged through the module apply guard (when
    the bulk transform raises it), the model load guard and the entry
    point, which then makes no second call of [cli()] and leaves
    [sys.argv] alone; it goes unchanged through the transfer guard
    unless it is a [NotImplementedError] on a sparse tensor. *)
Theorem unmarked_failure_propagates (f : failure) :
  has_marker f = false ->
  (forall (T : Tensor) (P : ToArgs) (w : World),
      _original_to T P = Raise (Failure f) ->
      is_NotImplementedError (Failure f) = false \/ is_sparse T = false ->
      fst (patched_to T P w) = Raise (Failure f))
  /\ (forall _apply (self left : Module) (fn : transform) (w : World),
         _original_apply self fn = BulkRaised (Failure f) left ->
         patched_apply _apply self fn w = (Raise (Failure f), w))
  /\ (forall name device download_root in_memory (w : World),
         original_load_model name device download_root in_memory = Raise (Failure f) ->
         fst (optimized_load_model name device download_root in_memory w)
         = Raise (Failure f))
  /\ (forall w : World,
         cli (length (cli_calls w)) (delegated_argv (argv w)) = Raise (Failure f) ->
         fst (main w) = Raise (Failure f)
         /\ cli_calls (snd (main w)) = cli_calls w ++ [delegated_argv (argv w)]
         /\ argv (snd (main w)) = delegated_argv (argv w)).
Proof.
  intros Hm. split; [|split; [|split]].
  - intros T P w E [Hk|Hd].
    + now rewrite (patched_to_not_caught T P w _ E Hk).
    + now rewrite (patched_to_dense T P w Hd).
  - intros _apply self left fn w E.
    exact (patched_apply_propagates _apply self left fn f w E Hm).
  - intros name device download_root in_memory w E.
    now apply optimized_load_model_propagates.
  - intros w E. pose proof (main_run w) as Hrun. cbv zeta in Hrun.
    rewrite E in Hrun. destruct f as [msg|ty msg]; [|exact Hrun].
    unfold has_marker in Hm. simpl in Hm. now rewrite Hm in Hrun.
Qed.
End Propagation.

(** C2 on a failure without the operation name, [RuntimeError] for an
    unknown device: each of the four entry points raises it again. *)
Lemma unmarked_failure_propagates_witness :
  let f := OtherError "RuntimeError" "Invalid device string: tpu" in
  fst (@patched_to mps_backend (dense_cpu 7) "tpu" (start [])) = Raise (Failure f)
  /\ @patched_apply mps_backend toy_modules (@Module__apply mps_backend toy_modules 1)
       toy_layer (fun t => @_original_to mps_backend t "tpu") (start [])
     = (Raise (Failure f), start [])
  /\ fst (@optimized_load_model (failing_whisper f) toy_clock
            "tiny" (Some "mps") None false (start []))
     = Raise (Failure f)
  /\ fst (@main (failing_whisper f) toy_clock (start ["whisper_mps.py"; "audio.wav"]))
     = Raise (Failure f)
  /\ cli_calls (snd (@main (failing_whisper f) toy_clock
                       (start ["whisper_mps.py"; "audio.wav"])))
     = [["whisper_mps.py"; "audio.wav"]].
Proof.
  intros f.
  destruct (@unmarked_failure_propagates mps_backend toy_modules
              (failing_whisper f) toy_clock f eq_refl)
    as (Hto & Happly & Hload & Hmain).
  split; [|split; [|split]].
  - exact (Hto (dense_cpu 7) "tpu" (start []) eq_refl (or_introl eq_refl)).
  - exact (Happly (@Module__apply mps_backend toy_modules 1) toy_layer toy_layer
                  (fun t => @_original_to mps_backend t "tpu") (start []) eq_refl).
  - exact (Hload "tiny" (Some "mps") None false (start []) eq_refl).
  - destruct (Hmain (start ["whisper_mps.py"; "audio.wav"]) eq_refl) as (Hr & Hc & _).
    split; [exact Hr|exact Hc].
Defined.

(** * Further properties *)

(** ** The argument rewrite, continued *)

Lemma is_plain_tests (arg : string) :
  is_plain arg = true ->
  (arg =? "--device") = false /\ startswith arg "--device=" = false
  /\ (arg =? "--fp16") = false /\ startswith arg "--fp16=" = false.
Proof.
  unfold is_plain, is_space_flag, is_join_flag.
  destruct (arg =? "--device"), (startswith arg "--device="),
    (arg =? "--fp16"), (startswith arg "--fp16="); simpl;
    intros Hp; try discriminate Hp; repeat split.
Qed.

(** X1: an argument list in which neither flag occurs, in either form,
    comes out of the rewrite exactly as it went in. *)
Theorem rewrite_args_plain (args : list string) :
  forallb is_plain args = true -> rewrite_args args = args.
Proof.
  induction args as [|arg rest IH]; [reflexivity|].
  simpl forallb. intros Hall. apply andb_prop in Hall. destruct Hall as [Hp Hrest].
  destruct (is_plain_tests arg Hp) as (E1 & E2 & E3 & E4).
  unfold rewrite_args. rewrite rewrite_loop_cons, E1, E2, E3, E4.
  f_equal. apply IH, Hrest.
Qed.

Lemma rewrite_args_plain_witness :
  rewrite_args ["audio.wav"; "--model"; "tiny"; "--language"; "en"]
  = ["audio.wav"; "--model"; "tiny"; "--language"; "en"].
Proof.
  exact (rewrite_args_plain ["audio.wav"; "--model"; "tiny"; "--language"; "en"] eq_refl).
Defined.

Lemma rewrite_loop_length (args : list string) :
  forall skip_next,
    (length (rewrite_loop args skip_next []) + (if skip_next then 1 else 0)
     = length args + (if skip_next_after skip_next args then 1 else 0))%nat.
Proof.
  induction args as [|arg rest IH]; intros skip_next.
  - destruct skip_next; reflexivity.
  - destruct skip_next.
    + simpl. specialize (IH false). simpl in IH. lia.
    + rewrite rewrite_loop_cons. simpl skip_next_after.
      destruct (arg =? "--device"); [specialize (IH true); simpl in *; lia|].
      destruct (startswith arg "--device="); [specialize (IH false); simpl in *; lia|].
      destruct (arg =? "--fp16"); [specialize (IH true); simpl in *; lia|].
      destruct (startswith arg "--fp16="); specialize (IH false); simpl in *; lia.
Qed.

(** X2: the rewrite keeps the number of arguments, except that a
    space-form flag left without its value at the very end of the list
    is given one, which makes the output one longer. *)
Theorem rewrite_args_length (args : list string) :
  length (rewrite_args args)
  = (length args + (if skip_next_after false args then 1 else 0))%nat.
Proof.
  pose proof (rewrite_loop_length args false) as E. simpl in E.
  unfold rewrite_args. lia.
Qed.

(** X3: the rewrite of a concatenation is the rewrite of the first
    part followed by the rewrite of the second, which starts by
    skipping its first token when the first part ended in a space-form
    flag. *)
Theorem rewrite_loop_app (xs ys : list string) :
  forall skip_next,
    rewrite_loop (xs ++ ys) skip_next []
    = rewrite_loop xs skip_next []
      ++ rewrite_loop ys (skip_next_after skip_next xs) [].
Proof.
  induction xs as [|arg rest IH]; intros skip_next; [reflexivity|].
  destruct skip_next.
  - simpl. apply IH.
  - rewrite <- app_comm_cons, !rewrite_loop_cons. simpl skip_next_after.
    destruct (arg =? "--device"); [now rewrite IH|].
    destruct (startswith arg "--device="); [now rewrite IH|].
    destruct (arg =? "--fp16"); [now rewrite IH|].
    destruct (startswith arg "--fp16="); now rewrite IH.
Qed.

Lemma rewrite_loop_safe (args : list string) :
  forall skip_next, safe_args (rewrite_loop args skip_next []) = true.
Proof.
  induction args as [|arg rest IH]; intros skip_next; [reflexivity|].
  destruct skip_next; [exact (IH false)|].
  rewrite rewrite_loop_cons. unfold safe_args.
  destruct (arg =? "--device") eqn:E1; [exact (IH true)|].
  destruct (startswith arg "--device=") eqn:E2; [exact (IH false)|].
  destruct (arg =? "--fp16") eqn:E3; [exact (IH true)|].
  destruct (startswith arg "--fp16=") eqn:E4; [exact (IH false)|].
  simpl. rewrite E1, E2, E3, E4. exact (IH false).
Qed.

Lemma safe_args_fixed (args : list string) :
  (safe_args_from None args = true -> rewrite_loop args false [] = args)
  /\ (forall value,
         safe_args_from (Some value) args = true ->
         exists rest, args = value :: rest /\ rewrite_loop args true [] = rest).
Proof.
  induction args as [|arg rest [IHnone IHsome]].
  - split; [reflexivity|]. intros value Hs. discriminate Hs.
  - split.
    + rewrite rewrite_loop_cons. simpl.
      destruct (arg =? "--device") eqn:E1.
      { intros Hs. destruct (IHsome _ Hs) as (rest' & -> & ->).
        apply String.eqb_eq in E1. now subst arg. }
      destruct (startswith arg "--device=") eqn:E2.
      { intros Hs. apply andb_prop in Hs. destruct Hs as [Ha Hs].
        apply String.eqb_eq in Ha. subst arg. now rewrite (IHnone Hs). }
      destruct (arg =? "--fp16") eqn:E3.
      { intros Hs. destruct (IHsome _ Hs) as (rest' & -> & ->).
        apply String.eqb_eq in E3. now subst arg. }
      destruct (startswith arg "--fp16=") eqn:E4.
      { intros Hs. apply andb_prop in Hs. destruct Hs as [Ha Hs].
        apply String.eqb_eq in Ha. subst arg. now rewrite (IHnone Hs). }
      intros Hs. now rewrite (IHnone Hs).
    + intros value Hs. simpl in Hs. apply andb_prop in Hs. destruct Hs as [Ha Hs].
      apply String.eqb_eq in Ha. subst arg. exists rest. split; [reflexivity|].
      simpl. now apply IHnone.
Qed.

(** X4: what the rewrite produces always forces the CPU and full
    precision wherever one of the two flags occurs, and the argument
    lists the rewrite leaves unchanged are exactly those that do. *)
Theorem rewrite_args_safe :
  (forall args, safe_args (rewrite_args args) = true)
  /\ (forall args, rewrite_args args = args <-> safe_args args = true).
Proof.
  split.
  - intros args. apply rewrite_loop_safe.
  - intros args. split.
    + intros E. rewrite <- E. apply rewrite_loop_safe.
    + intros Hs. now apply (proj1 (safe_args_fixed args)).
Qed.

(** ** The MPS scan (lines 139-145) *)

Lemma prefix_of_longer (p q s : string) :
  String.prefix (p ++ q) s = true -> String.prefix p s = true.
Proof.
  revert s. induction p as [|c p IH]; intros s.
  - now destruct s.
  - destruct s as [|c' s]; simpl; [discriminate|].
    destruct (Ascii.ascii_dec c c'); [apply IH|discriminate].
Qed.

Lemma device_mps_is_join (arg : string) :
  startswith arg "--device=" = false -> startswith arg "--device=mps" = false.
Proof.
  intros Hn. destruct (startswith arg "--device=mps") eqn:E; [|reflexivity].
  unfold startswith in *.
  rewrite (prefix_of_longer "--device=" "mps" arg E) in Hn. discriminate Hn.
Qed.

Lemma using_mps_rewrite_loop (args : list string) :
  forall skip_next, using_mps (rewrite_loop args skip_next []) = false.
Proof.
  induction args as [|arg rest IH]; intros skip_next; [reflexivity|].
  destruct skip_next; [exact (IH false)|].
  rewrite rewrite_loop_cons.
  destruct (arg =? "--device") eqn:E1; [exact (IH true)|].
  destruct (startswith arg "--device=") eqn:E2; [exact (IH false)|].
  destruct (arg =? "--fp16") eqn:E3; [exact (IH true)|].
  destruct (startswith arg "--fp16=") eqn:E4; [exact (IH false)|].
  simpl. rewrite E1, (device_mps_is_join arg E2). simpl. exact (IH false).
Qed.

(** X5: whatever the arguments were, the scan of lines 139-145 finds
    no request for MPS in the rewritten arguments. *)
Theorem using_mps_after_rewrite (args : list string) :
  using_mps (rewrite_args args) = false.
Proof. apply using_mps_rewrite_loop. Qed.

(** X6: the scan answers [True] exactly when some argument is
    [--device] with [mps] right after it, or some argument starts with
    [--device=mps]. *)
Theorem using_mps_spec (args : list string) :
  using_mps args = true
  <-> exists before after,
        args = before ++ "--device" :: "mps" :: after
        \/ exists arg, args = before ++ arg :: after
                       /\ startswith arg "--device=mps" = true.
Proof.
  split.
  - induction args as [|arg rest IH]; simpl; [discriminate|].
    destruct (String.eqb_spec arg "--device") as [->|Hne]; simpl.
    + destruct rest as [|next rest'].
      * simpl. discriminate.
      * destruct (String.eqb_spec next "mps") as [->|Hnm].
        { intros _. exists [], rest'. now left. }
        change (startswith "--device" "--device=mps") with false. cbv iota.
        intros Hu. destruct (IH Hu) as (before & after & [E|(a & E & Ha)]).
        { exists ("--device" :: before), after. left. now rewrite E. }
        { exists ("--device" :: before), after. right. exists a. now rewrite E. }
    + destruct (startswith arg "--device=mps") eqn:Ep.
      * intros _. exists [], rest. right. now exists arg.
      * intros Hu. destruct (IH Hu) as (before & after & [E|(a & E & Ha)]).
        { exists (arg :: before), after. left. now rewrite E. }
        { exists (arg :: before), after. right. exists a. now rewrite E. }
  - intros (before & after & Hcase). revert args Hcase.
    induction before as [|b before IH]; intros args Hcase.
    + destruct Hcase as [->|(a & -> & Ha)]; simpl; [reflexivity|].
      rewrite Ha. now destruct (a =? "--device"); destruct after; simpl;
        try destruct (_ =? "mps").
    + assert (Htail : using_mps (tl args) = true).
      { apply IH. destruct Hcase as [->|(a & -> & Ha)]; simpl; [now left|].
        right. now exists a. }
      destruct Hcase as [->|(a & -> & Ha)]; simpl in *;
        rewrite Htail;
        destruct ((b =? "--device") && _); [reflexivity| |reflexivity|];
        now destruct (startswith b "--device=mps").
Qed.

(** ** The entry point, with its log *)

Section EntryPointTrace.
Context `{Whisper} `{Clock}.

(** [main] in full, by what the first call of [cli()] does. *)
Lemma main_trace (w : World) :
  let a := argv w in
  let d := delegated_argv a in
  let n := length (cli_calls w) in
  let intro := log w ++ main_intro a in
  main w
  = match cli n d with
    | Return v =>
        if list_in "--benchmark" a then
          (Return v,
           mkWorld d
             (intro ++ [(INFO, TextSeconds "Transcription completed in "
                                 (time_time (S (ticks w)) - time_time (ticks w))%Z
                                 " seconds")])
             (cli_calls w ++ [d]) (S (S (ticks w))))
        else (Return v, mkWorld d intro (cli_calls w ++ [d]) (ticks w))
    | Raise (Failure f) =>
        if is_sparse_error f then
          match d with
          | argv0 :: args =>
              let d' := argv0 :: rewrite_args args in
              (cli (S n) d',
               mkWorld d' (intro ++ caught_record f :: fallback_records d')
                 (cli_calls w ++ [d; d']) (ticks_at_failure w))
          | [] =>
              (Raise (Failure (OtherError "IndexError" "list index out of range")),
               mkWorld d
                 (intro ++ [caught_record f;
                            (WARNING, Text "Falling back to CPU due to sparse tensor error")])
                 (cli_calls w ++ [d]) (ticks_at_failure w))
          end
        else
          (Raise (Failure f),
           mkWorld d (intro ++ [caught_record f]) (cli_calls w ++ [d])
             (ticks_at_failure w))
    | Raise (SystemExit code) =>
        (Raise (SystemExit code),
         mkWorld d intro (cli_calls w ++ [d]) (ticks_at_failure w))
    end.
Proof.
  intros a d n intro. subst a d n intro.
  unfold delegated_argv, main_intro, ticks_at_failure, fallback_records.
  cbv beta iota delta [main argv_remove benchmark_transcription force_cpu_argv
                  call_cli now bind try_except get_argv set_argv logger
                  ret raise].
  destruct (using_mps (argv w)); cbn [argv log cli_calls ticks];
    (destruct (list_in "--benchmark" (argv w)) eqn:Hb;
     cbn [argv log cli_calls ticks];
     [destruct (list_remove_in _ _ Hb) as [a' Ha']; rewrite Ha';
      cbn [argv log cli_calls ticks];
      destruct (cli (length (cli_calls w)) a') as [v|[[msg|ty msg]|c]]
     |destruct (cli (length (cli_calls w)) (argv w)) as [v|[[msg|ty msg]|c]]];
     cbn [argv log cli_calls ticks fst snd is_sparse_error caught_record];
     try (rewrite <- ?app_assoc; reflexivity);
     (match goal with
      | |- context [str_contains sparse_marker ?m] =>
          destruct (str_contains sparse_marker m);
          cbn [argv log cli_calls ticks fst snd];
          [|rewrite <- ?app_assoc; reflexivity]
      end);
     (match goal with
      | |- context [match ?l with [] => _ | _ :: _ => _ end] =>
          destruct l as [|argv0 args];
          cbn [argv log cli_calls ticks fst snd tl app];
          [rewrite <- ?app_assoc; reflexivity|]
      end);
     rewrite length_app, Nat.add_1_r; cbn [length];
     rewrite <- ?app_assoc; reflexivity).
Qed.
End EntryPointTrace.

Lemma list_remove_first (x : string) (before after : list string) :
  list_in x before = false ->
  list_remove x (before ++ x :: after) = Some (before ++ after).
Proof.
  induction before as [|y before IH]; simpl.
  - now rewrite String.eqb_refl.
  - rewrite (String.eqb_sym x y). destruct (y =? x); [discriminate|].
    simpl. intros Hni. now rewrite (IH Hni).
Qed.

Lemma list_in_app_flag (x : string) (before after : list string) :
  list_in x (before ++ x :: after) = true.
Proof.
  unfold list_in. rewrite existsb_app. simpl.
  rewrite String.eqb_refl. now rewrite orb_true_r.
Qed.

(** X7: what the first call of [cli()] finds in [sys.argv] is the
    original list when [--benchmark] does not occur, and otherwise the
    original list without the first [--benchmark], every other argument
    (later occurrences of the flag included) kept in its place. *)
Theorem delegated_argv_first_occurrence (a : list string) :
  (list_in "--benchmark" a = false -> delegated_argv a = a)
  /\ (forall before after,
         a = before ++ "--benchmark" :: after ->
         list_in "--benchmark" before = false ->
         delegated_argv a = before ++ after).
Proof.
  split.
  - intros Hni. unfold delegated_argv. now rewrite Hni.
  - intros before after -> Hni. unfold delegated_argv.
    now rewrite list_in_app_flag, (list_remove_first _ _ _ Hni).
Qed.

Lemma delegated_argv_first_occurrence_witness :
  delegated_argv ["whisper_mps.py"; "audio.wav"; "--model"; "tiny"]
  = ["whisper_mps.py"; "audio.wav"; "--model"; "tiny"]
  /\ delegated_argv ["whisper_mps.py"; "a.wav"; "--benchmark"; "--fp16"; "True"; "--benchmark"]
     = ["whisper_mps.py"; "a.wav"; "--fp16"; "True"; "--benchmark"].
Proof.
  split.
  - exact (proj1 (delegated_argv_first_occurrence
                    ["whisper_mps.py"; "audio.wav"; "--model"; "tiny"]) eq_refl).
  - exact (proj2 (delegated_argv_first_occurrence
                    ["whisper_mps.py"; "a.wav"; "--benchmark"; "--fp16"; "True"; "--benchmark"])
                 ["whisper_mps.py"; "a.wav"] ["--fp16"; "True"; "--benchmark"]
                 eq_refl eq_refl).
Defined.

(** X8: the first call of [cli()] finds no [--benchmark] in
    [sys.argv] exactly when the flag occurred at most once in the
    original arguments. *)
Theorem benchmark_flag_stripped_iff (a : list string) :
  list_in "--benchmark" (delegated_argv a) = false
  <-> (count_occ string_dec a "--benchmark" <= 1)%nat.
Proof.
  rewrite delegated_argv_flag. rewrite Nat.ltb_ge. reflexivity.
Qed.

Section EntryPointRuns.
Context `{Whisper} `{Clock}.

(** The script body in full, by what [main] does. *)
Lemma run_script_trace (w : World) :
  run_script w
  = match main w with
    | (Return v, w') => (exit_code_of v, w')
    | (Raise (SystemExit code), w') => (exit_code_of code, w')
    | (Raise (Failure f), w') =>
        (1%Z, mkWorld (argv w') (log w' ++ [fatal_record f]) (cli_calls w') (ticks w'))
    end.
Proof.
  unfold run_script, script_body, try_except, bind, sys_exit, raise, logger,
    fatal_record.
  destruct (main w) as [[v|[f|c]] w']; reflexivity.
Qed.

(** X10: when the first run fails with the sparse error and the run on
    the rewritten arguments returns, [main] returns that value and the
    process exits with the code [sys.exit] makes of it; [cli()] has
    been called exactly twice, the second time on the rewritten
    [sys.argv]; and the last records [main] itself has logged are the
    error, the fallback warning and the rewritten [sys.argv], in that
    order. *)
Theorem main_fallback_returns (w : World) (argv0 : string) (args : list string)
        (msg : string) (v : pyval) :
  delegated_argv (argv w) = argv0 :: args ->
  cli (length (cli_calls w)) (argv0 :: args)
  = Raise (Failure (NotImplementedError msg)) ->
  str_contains sparse_marker msg = true ->
  cli (S (length (cli_calls w))) (argv0 :: rewrite_args args) = Return v ->
  fst (main w) = Return v
  /\ cli_calls (snd (main w))
     = cli_calls w ++ [argv0 :: args; argv0 :: rewrite_args args]
  /\ argv (snd (main w)) = argv0 :: rewrite_args args
  /\ fst (run_script w) = exit_code_of v
  /\ exists earlier,
       log (snd (main w))
       = earlier
         ++ (ERROR, Text ("NotImplementedError: " ++ msg))
            :: fallback_records (argv0 :: rewrite_args args).
Proof.
  intros Hd E1 Hm E2.
  pose proof (main_trace w) as Ht. cbv zeta in Ht.
  rewrite Hd, E1 in Ht. cbn [is_sparse_error caught_record] in Ht.
  rewrite Hm, E2 in Ht.
  split; [now rewrite Ht|]. split; [now rewrite Ht|]. split; [now rewrite Ht|].
  split.
  - rewrite run_script_trace, Ht. reflexivity.
  - exists (log w ++ main_intro (argv w)). now rewrite Ht.
Qed.

(** X11: when the first run raises a failure that is not the sparse
    error, nothing is retried: the process exits with code 1 after one
    call of [cli()], and the log ends with the record of [main] for
    that failure followed by the fatal-error record of the top level,
    both carrying its message. *)
Theorem run_script_failure_logged (w : World) (f : failure) :
  cli (length (cli_calls w)) (delegated_argv (argv w)) = Raise (Failure f) ->
  is_sparse_error f = false ->
  run_script w
  = (1%Z,
     mkWorld (delegated_argv (argv w))
       (log w ++ main_intro (argv w) ++ [caught_record f; fatal_record f])
       (cli_calls w ++ [delegated_argv (argv w)])
       (ticks_at_failure w)).
Proof.
  intros E Hs.
  pose proof (main_trace w) as Ht. cbv zeta in Ht. rewrite E, Hs in Ht.
  rewrite run_script_trace, Ht. cbn [argv log cli_calls ticks].
  now rewrite <- !app_assoc.
Qed.
End EntryPointRuns.

Lemma main_fallback_returns_witness :
  let w := start ["whisper_mps.py"; "audio.wav"; "--device=mps"; "--fp16"; "True"] in
  fst (@main (toy_whisper mps_cli) toy_clock w) = Return VNone
  /\ cli_calls (snd (@main (toy_whisper mps_cli) toy_clock w))
     = [["whisper_mps.py"; "audio.wav"; "--device=mps"; "--fp16"; "True"];
        ["whisper_mps.py"; "audio.wav"; "--device=cpu"; "--fp16"; "False"]]
  /\ fst (@run_script (toy_whisper mps_cli) toy_clock w) = 0%Z.
Proof.
  intros w.
  destruct (@main_fallback_returns (toy_whisper mps_cli) toy_clock w
              "whisper_mps.py" ["audio.wav"; "--device=mps"; "--fp16"; "True"]
              sparse_coo_message VNone eq_refl eq_refl eq_refl eq_refl)
    as (Hr & Hc & _ & Hx & _).
  split; [exact Hr|]. split; [exact Hc|exact Hx].
Defined.

Lemma run_script_failure_logged_witness :
  let f := OtherError "FileNotFoundError" "audio.wav" in
  @run_script (failing_whisper f) toy_clock (start ["whisper_mps.py"; "audio.wav"])
  = (1%Z,
     mkWorld ["whisper_mps.py"; "audio.wav"]
       [(INFO, TextArgv "Starting whisper_mps with args: " ["whisper_mps.py"; "audio.wav"]);
        (INFO, Text "Running with CPU");
        (INFO, Text "Attempting to run whisper");
        (ERROR, Text "Unexpected error: FileNotFoundError: audio.wav");
        (ERROR, Text "Fatal error: FileNotFoundError: audio.wav")]
       [["whisper_mps.py"; "audio.wav"]] 0).
Proof.
  intros f.
  exact (@run_script_failure_logged (failing_whisper f) toy_clock
           (start ["whisper_mps.py"; "audio.wav"]) f eq_refl eq_refl).
Defined.

(** ** Leaving through [SystemExit] *)

Section SystemExitPasses.
Context `{Whisper} `{Clock}.

(** X12: when the first run of the wrapped command line leaves
    through [SystemExit], as argparse does for [--help] or a usage
    error, no handler of the script catches it: nothing is retried,
    nothing is logged after the records that precede the run, and the
    exit code is the one the command line asked for. *)
Theorem run_script_system_exit (w : World) (code : pyval) :
  cli (length (cli_calls w)) (delegated_argv (argv w)) = Raise (SystemExit code) ->
  run_script w
  = (exit_code_of code,
     mkWorld (delegated_argv (argv w)) (log w ++ main_intro (argv w))
       (cli_calls w ++ [delegated_argv (argv w)]) (ticks_at_failure w)).
Proof.
  intros E.
  pose proof (main_trace w) as Ht. cbv zeta in Ht. rewrite E in Ht.
  now rewrite run_script_trace, Ht.
Qed.
End SystemExitPasses.

Lemma run_script_system_exit_witness :
  @run_script (toy_whisper mps_cli) toy_clock (start ["whisper_mps.py"])
  = (2%Z,
     mkWorld ["whisper_mps.py"]
       [(INFO, TextArgv "Starting whisper_mps with args: " ["whisper_mps.py"]);
        (INFO, Text "Running with CPU");
        (INFO, Text "Attempting to run whisper")]
       [["whisper_mps.py"]] 0).
Proof.
  exact (@run_script_system_exit (toy_whisper mps_cli) toy_clock
           (start ["whisper_mps.py"]) (VInt 2) eq_refl).
Defined.

(** ** The log of the module guard *)

Lemma only_logs_refl (w : World) : only_logs w w.
Proof.
  repeat split. exists []. now rewrite app_nil_r.
Qed.

Lemma only_logs_trans (w1 w2 w3 : World) :
  only_logs w1 w2 -> only_logs w2 w3 -> only_logs w1 w3.
Proof.
  intros (Ha & Hc & Ht & r & Hl) (Ha' & Hc' & Ht' & r' & Hl').
  repeat split; try congruence.
  exists (r ++ r'). now rewrite Hl', Hl, app_assoc.
Qed.

Lemma only_logs_logger (l : level) (m : log_msg) (w : World) :
  only_logs w (snd (logger l m w)).
Proof.
  repeat split. now exists [(l, m)].
Qed.

Section PatchesFrame.
Context `{TorchModule}.

(** One entry of the per-item loop. *)
Lemma apply_items_step (what : string) (fn : transform) (key : string)
      (t : Tensor) (rest d : dict) (w : World) :
  apply_items what fn ((key, Some t) :: rest) d w
  = match fn t with
    | Return t' => apply_items what fn rest (dict_set d key (Some t')) w
    | Raise (Failure (NotImplementedError msg)) =>
        if is_sparse t then
          let w1 := snd (logger INFO
                           (Text ("Converting sparse " ++ what ++ " to dense: " ++ key)) w) in
          match to_dense t with
          | Return dense =>
              match fn dense with
              | Return t' => apply_items what fn rest (dict_set d key (Some t')) w1
              | Raise e => (Raise e, w1)
              end
          | Raise e => (Raise e, w1)
          end
        else apply_items what fn rest d w
    | Raise e => (Raise e, w)
    end.
Proof.
  simpl. unfold bind, try_except, lift, ret, logger.
  destruct (fn t) as [t'|[[msg|ty msg]|code]]; try reflexivity.
  destruct (is_sparse t); [|reflexivity].
  cbn [fst snd]. destruct (to_dense t) as [dense|e]; [|reflexivity].
  destruct (fn dense); reflexivity.
Qed.

Lemma apply_items_only_logs (what : string) (fn : transform) (items : dict) :
  forall (d : dict) (w : World),
    only_logs w (snd (apply_items what fn items d w)).
Proof.
  induction items as [|[key [t|]] rest IH]; intros d w.
  - apply only_logs_refl.
  - rewrite apply_items_step.
    destruct (fn t) as [t'|[[msg|ty msg]|code]];
      try apply IH; try apply only_logs_refl.
    destruct (is_sparse t); [|apply IH].
    cbv zeta.
    destruct (to_dense t) as [dense|e]; [|apply only_logs_logger].
    destruct (fn dense) as [t'|e]; [|apply only_logs_logger].
    eapply only_logs_trans; [apply only_logs_logger|apply IH].
  - simpl. apply IH.
Qed.

Lemma apply_children_only_logs (_apply : Module -> transform -> M Module)
      (fn : transform) (cs : list Module) :
  (forall c w, only_logs w (snd (_apply c fn w))) ->
  forall w, only_logs w (snd (apply_children _apply fn cs w)).
Proof.
  intros Hf. induction cs as [|c rest IH]; intros w.
  - apply only_logs_refl.
  - simpl. unfold bind. pose proof (Hf c w) as Hc.
    destruct (_apply c fn w) as [[c'|e] w1]; [|exact Hc].
    pose proof (IH w1) as Hr.
    destruct (apply_children _apply fn rest w1) as [[rest'|e] w2];
      exact (only_logs_trans _ _ _ Hc Hr).
Qed.

Lemma patched_apply_only_logs (_apply : Module -> transform -> M Module)
      (self : Module) (fn : transform) (w : World) :
  (forall c w0, only_logs w0 (snd (_apply c fn w0))) ->
  only_logs w (snd (patched_apply _apply self fn w)).
Proof.
  intros Hf. unfold patched_apply.
  destruct (_original_apply self fn) as [self'|[[msg|ty msg]|code] left];
    try apply only_logs_refl.
  destruct (str_contains sparse_marker msg); [|apply only_logs_refl].
  unfold bind.
  pose proof (only_logs_logger WARNING
                (Text ("Handling sparse tensor in Module._apply: " ++ msg)) w) as L0.
  destruct (logger WARNING _ w) as [[[]|e] w0]; [|exact L0].
  pose proof (apply_items_only_logs "parameter" fn (_parameters left)
                (_parameters left) w0) as L1.
  destruct (apply_items "parameter" fn _ _ w0) as [[params|e] w1];
    [|exact (only_logs_trans _ _ _ L0 L1)].
  pose proof (apply_items_only_logs "buffer" fn (_buffers left)
                (_buffers left) w1) as L2.
  destruct (apply_items "buffer" fn _ _ w1) as [[bufs|e] w2];
    [|exact (only_logs_trans _ _ _ L0 (only_logs_trans _ _ _ L1 L2))].
  pose proof (apply_children_only_logs _apply fn (children left) Hf w2) as L3.
  destruct (apply_children _apply fn _ w2) as [[cs|e] w3];
    exact (only_logs_trans _ _ _ L0
             (only_logs_trans _ _ _ L1 (only_logs_trans _ _ _ L2 L3))).
Qed.

(** The statements of the guard, at any depth, change nothing of the
    globals but the log, to which they append. *)
Lemma Module__apply_only_logs (depth : nat) :
  forall (self : Module) (fn : transform) (w : World),
    only_logs w (snd (Module__apply depth self fn w)).
Proof.
  induction depth as [|depth IH]; intros self fn w.
  - apply only_logs_refl.
  - simpl. apply patched_apply_only_logs. intros c w0. apply IH.
Qed.

(** When the guard takes the bulk failure for the sparse error, the
    first thing it does is to log its warning. *)
Lemma patched_apply_selected (_apply : Module -> transform -> M Module)
      (self left : Module) (fn : transform) (msg : string) (w : World) :
  _original_apply self fn = BulkRaised (Failure (NotImplementedError msg)) left ->
  str_contains sparse_marker msg = true ->
  (forall c w0, only_logs w0 (snd (_apply c fn w0))) ->
  exists records,
    log (snd (patched_apply _apply self fn w))
    = log w ++ (WARNING, Text ("Handling sparse tensor in Module._apply: " ++ msg))
               :: records.
Proof.
  intros Hbulk Hm Hf. unfold patched_apply. rewrite Hbulk, Hm.
  unfold bind at 1. unfold logger at 1.
  set (w0 := mkWorld (argv w) _ (cli_calls w) (ticks w)).
  assert (Hrest : forall w1, only_logs w0 w1 ->
                    exists records,
                      log w1 = log w ++ (WARNING, Text ("Handling sparse tensor in Module._apply: " ++ msg))
                                        :: records).
  { intros w1 (_ & _ & _ & r & Hl). exists r. rewrite Hl. unfold w0. simpl.
    now rewrite <- app_assoc. }
  apply Hrest. unfold bind.
  pose proof (apply_items_only_logs "parameter" fn (_parameters left)
                (_parameters left) w0) as L1.
  destruct (apply_items "parameter" fn _ _ w0) as [[params|e] w1]; [|exact L1].
  pose proof (apply_items_only_logs "buffer" fn (_buffers left)
                (_buffers left) w1) as L2.
  destruct (apply_items "buffer" fn _ _ w1) as [[bufs|e] w2];
    [|exact (only_logs_trans _ _ _ L1 L2)].
  pose proof (apply_children_only_logs _apply fn (children left) Hf w2) as L3.
  destruct (apply_children _apply fn _ w2) as [[cs|e] w3];
    exact (only_logs_trans _ _ _ L1 (only_logs_trans _ _ _ L2 L3)).
Qed.
End PatchesFrame.

(** ** What the module guard has done when it returns *)

Section ModuleGuardSound.
Context `{TorchModule}.

Lemma apply_items_sound (what : string) (fn : transform) (items : dict) :
  forall (pre : dict) (w : World) (d' : dict) (w' : World),
    NoDup (map fst (pre ++ items)) ->
    apply_items what fn items (pre ++ items) w = (Return d', w') ->
    exists items',
      d' = pre ++ items' /\ Forall2 (entry_outcome fn) items items'.
Proof.
  induction items as [|[key [t|]] rest IH]; intros pre w d' w' Hnd E.
  - injection E as <- _. exists []. split; [reflexivity|constructor].
  - pose proof (key_not_before _ _ _ _ Hnd) as Hni.
    assert (Hdone : forall t1 w1,
               transformed fn t t1 ->
               apply_items what fn rest (pre ++ (key, Some t1) :: rest) w1 = (Return d', w') ->
               exists items',
                 d' = pre ++ items'
                 /\ Forall2 (entry_outcome fn) ((key, Some t) :: rest) items').
    { intros t1 w1 Ht E1.
      destruct (IH (pre ++ [(key, Some t1)]) w1 d' w') as (items' & -> & F).
      - rewrite <- app_assoc. simpl.
        rewrite (keys_after_set pre rest key (Some t) (Some t1)). exact Hnd.
      - rewrite <- app_assoc. exact E1.
      - exists ((key, Some t1) :: items'). rewrite <- app_assoc. split; [reflexivity|].
        constructor; [|exact F]. left. split; [reflexivity|exact Ht]. }
    rewrite apply_items_step in E.
    destruct (fn t) as [t1|[[msg|ty msg]|code]] eqn:Ef; try discriminate E.
    + rewrite (dict_set_at pre rest key (Some t) (Some t1) Hni) in E.
      apply (Hdone t1 w); [now left|exact E].
    + destruct (is_sparse t) eqn:Es.
      * cbv zeta in E.
        destruct (to_dense t) as [dense|e] eqn:Ed; [|discriminate E].
        destruct (fn dense) as [t1|e] eqn:Efd; [|discriminate E].
        rewrite (dict_set_at pre rest key (Some t) (Some t1) Hni) in E.
        eapply (Hdone t1); [|exact E].
        right. split; [exact Es|]. split; [now exists msg|]. now exists dense.
      * destruct (IH (pre ++ [(key, Some t)]) w d' w') as (items' & -> & F).
        { now rewrite <- app_assoc. }
        { rewrite <- app_assoc. exact E. }
        exists ((key, Some t) :: items'). rewrite <- app_assoc. split; [reflexivity|].
        constructor; [|exact F]. right. split; [reflexivity|].
        exists t, msg. now repeat split.
  - simpl in E.
    destruct (IH (pre ++ [(key, None)]) w d' w') as (items' & -> & F).
    + now rewrite <- app_assoc.
    + rewrite <- app_assoc. exact E.
    + exists ((key, None) :: items'). rewrite <- app_assoc. split; [reflexivity|].
      constructor; [|exact F]. left. now split.
Qed.

Lemma apply_children_sound (_apply : Module -> transform -> M Module)
      (fn : transform) (cs : list Module) :
  forall (w : World) (cs' : list Module) (w' : World),
    apply_children _apply fn cs w = (Return cs', w') ->
    Forall2 (fun c c' => exists w1 w2, _apply c fn w1 = (Return c', w2)) cs cs'.
Proof.
  induction cs as [|c rest IH]; intros w cs' w' E.
  - injection E as <- _. constructor.
  - simpl in E. unfold bind, ret in E.
    destruct (_apply c fn w) as [[c'|e] w1] eqn:Ec; [|discriminate E].
    destruct (apply_children _apply fn rest w1) as [[rest'|e] w2] eqn:Er;
      [|discriminate E].
    injection E as <- _. constructor; [now exists w, w1|].
    exact (IH w1 rest' w2 Er).
Qed.

(** X14: whenever the guard returns after the bulk transform raised
    the sparse error, the module it returns has the parameters and
    buffers of the module the bulk transform left, under the same names
    and in the same order, each one either transformed (directly, or
    through its dense form when it is sparse and the transform refused
    it) or left exactly as it was, the latter only for a tensor that is
    not sparse on which the transform raised [NotImplementedError]; and
    [_apply] has returned on every child. *)
Theorem module_guard_sound (depth : nat) (self left : Module) (fn : transform)
        (msg : string) (w : World) (m : Module) (w' : World) :
  _original_apply self fn = BulkRaised (Failure (NotImplementedError msg)) left ->
  str_contains sparse_marker msg = true ->
  NoDup (map fst (_parameters left)) ->
  NoDup (map fst (_buffers left)) ->
  Module__apply (S depth) self fn w = (Return m, w') ->
  Forall2 (entry_outcome fn) (_parameters left) (_parameters m)
  /\ Forall2 (entry_outcome fn) (_buffers left) (_buffers m)
  /\ Forall2 (fun c c' => exists w1 w2, Module__apply depth c fn w1 = (Return c', w2))
             (children left) (children m).
Proof.
  intros Hbulk Hm Hndp Hndb E.
  simpl in E. unfold patched_apply in E. rewrite Hbulk, Hm in E.
  unfold bind at 1 in E. unfold logger at 1 in E.
  unfold bind at 1 in E.
  destruct (apply_items "parameter" fn (_parameters left) (_parameters left) _)
    as [[params|e] w1] eqn:Ep; [|discriminate E].
  unfold bind at 1 in E.
  destruct (apply_items "buffer" fn (_buffers left) (_buffers left) w1)
    as [[bufs|e] w2] eqn:Eb; [|discriminate E].
  unfold bind at 1 in E.
  destruct (apply_children (Module__apply depth) fn (children left) w2)
    as [[cs|e] w3] eqn:Ec; [|discriminate E].
  injection E as <- _.
  destruct (apply_items_sound "parameter" fn (_parameters left) [] _ _ _ Hndp Ep)
    as (params' & -> & Fp).
  destruct (apply_items_sound "buffer" fn (_buffers left) [] _ _ _ Hndb Eb)
    as (bufs' & -> & Fb).
  split; [exact Fp|]. split; [exact Fb|].
  exact (apply_children_sound _ fn _ _ _ _ Ec).
Qed.

(** X15: the loop over the children stops at the first child on which
    [_apply] raises: that failure leaves the loop, whatever children
    come after. *)
Theorem apply_children_stops (_apply : Module -> transform -> M Module)
        (fn : transform) (before after : list Module) (c : Module)
        (w w1 w2 : World) (before' : list Module) (e : raised) :
  apply_children _apply fn before w = (Return before', w1) ->
  _apply c fn w1 = (Raise e, w2) ->
  apply_children _apply fn (before ++ c :: after) w = (Raise e, w2).
Proof.
  revert w before'. induction before as [|b before IH]; intros w before' Eb Ec.
  - injection Eb as _ <-. simpl. unfold bind. now rewrite Ec.
  - simpl in *. unfold bind, ret in *.
    destruct (_apply b fn w) as [[b'|e0] w0]; [|discriminate Eb].
    destruct (apply_children _apply fn before w0) as [[rest'|e0] w3] eqn:Er;
      [|discriminate Eb].
    injection Eb as _ <-. now rewrite (IH w0 rest' Er Ec).
Qed.
End ModuleGuardSound.

Lemma module_guard_sound_witness :
  Forall2 (@entry_outcome mps_backend (to_mps sparse_coo_message))
    (@_parameters mps_backend toy_layer_meta)
    [("indices", Some (mk_toy false "mps" false 2)); ("weight", Some (dense_meta 1))].
Proof.
  refine (proj1 (@module_guard_sound mps_backend toy_modules 1
                   toy_layer_meta toy_layer_meta (to_mps sparse_coo_message)
                   sparse_coo_message (start [])
                   (@mkModule mps_backend
                      [("indices", Some (mk_toy false "mps" false 2));
                       ("weight", Some (dense_meta 1))] [] [])
                   (mkWorld []
                      [(WARNING, Text ("Handling sparse tensor in Module._apply: "
                                       ++ sparse_coo_message));
                       (INFO, Text "Converting sparse parameter to dense: indices")]
                      [] 0)
                   eq_refl eq_refl _ _ eq_refl)).
  - simpl. repeat constructor; simpl; intuition discriminate.
  - simpl. constructor.
Defined.

Lemma apply_children_stops_witness :
  apply_children (@Module__apply mps_backend toy_modules 1)
    (to_mps sparse_coo_message) [toy_child; toy_child_meta; toy_child] (start [])
  = (Raise (Failure (NotImplementedError "Cannot copy out of meta tensor; no data!")),
     start []).
Proof.
  exact (@apply_children_stops mps_backend
           (@Module__apply mps_backend toy_modules 1) (to_mps sparse_coo_message)
           [toy_child] [toy_child] toy_child_meta (start []) (start []) (start [])
           [@mkModule mps_backend [("scale", Some (mk_toy false "mps" false 5))] [] []]
           _ eq_refl eq_refl).
Defined.

(** ** The marker test (lines 59 and 172) *)

Lemma prefix_spec (p s : string) :
  String.prefix p s = true <-> exists rest, s = (p ++ rest)%string.
Proof.
  revert s. induction p as [|c p IH]; intros s.
  - split; [intros _; now exists s|intros _; now destruct s].
  - destruct s as [|c' s]; simpl.
    + split; [discriminate|intros [rest Hr]; discriminate Hr].
    + destruct (Ascii.ascii_dec c c') as [->|Hne].
      * rewrite IH. split; intros [rest Hr]; exists rest; [now rewrite Hr|].
        now injection Hr.
      * split; [discriminate|]. intros [rest Hr]. injection Hr as Hc _.
        now subst.
Qed.

Lemma str_contains_spec (needle haystack : string) :
  str_contains needle haystack = true
  <-> exists before after, haystack = (before ++ needle ++ after)%string.
Proof.
  split.
  - induction haystack as [|c rest IH]; cbn [str_contains].
    + intros Hp. apply prefix_spec in Hp. destruct Hp as [r Hr].
      exists EmptyString, r. exact Hr.
    + intros Ho. apply orb_prop in Ho. destruct Ho as [Hp|Hc].
      * apply prefix_spec in Hp. destruct Hp as [r Hr].
        exists EmptyString, r. exact Hr.
      * destruct (IH Hc) as (b & a & ->). now exists (String c b), a.
  - intros (before & after & ->).
    induction before as [|c b IH].
    + cbn [String.append].
      assert (Hp : String.prefix needle (needle ++ after) = true).
      { apply prefix_spec. now exists after. }
      destruct (needle ++ after)%string; cbn [str_contains]; [exact Hp|].
      apply orb_true_iff. left. exact Hp.
    + cbn [String.append str_contains]. apply orb_true_iff. right. exact IH.
Qed.

Lemma is_sparse_error_spec (f : failure) :
  is_sparse_error f = true
  <-> exists msg before after,
        f = NotImplementedError msg
        /\ msg = (before ++ sparse_marker ++ after)%string.
Proof.
  destruct f as [msg|ty msg]; simpl.
  - rewrite str_contains_spec. split.
    + intros (b & a & ->). now exists (b ++ sparse_marker ++ a)%string, b, a.
    + intros (msg' & b & a & [= ->] & ->). now exists b, a.
  - split; [discriminate|]. intros (msg' & b & a & Hf & _). discriminate Hf.
Qed.

Section Selection.
Context `{TorchModule} `{Whisper} `{Clock}.

(** X17: the failure both handlers take for the sparse error is a
    [NotImplementedError] whose message holds the operation name
    somewhere inside it, and no other: when the first run of the
    wrapped command line raises a failure, [main] makes its second call
    of [cli()], on the rewritten arguments, exactly for such a failure;
    and when the bulk transform raises a failure, the module guard
    raises it again with nothing done exactly for a failure that is not
    such. *)
Theorem sparse_error_selection (f : failure) :
  (is_sparse_error f = true
   <-> exists msg before after,
         f = NotImplementedError msg
         /\ msg = (before ++ sparse_marker ++ after)%string)
  /\ (forall (w : World) (argv0 : string) (args : list string),
         delegated_argv (argv w) = argv0 :: args ->
         cli (length (cli_calls w)) (argv0 :: args) = Raise (Failure f) ->
         (cli_calls (snd (main w))
          = cli_calls w ++ [argv0 :: args; argv0 :: rewrite_args args]
          <-> is_sparse_error f = true))
  /\ (forall (depth : nat) (self left : Module) (fn : transform) (w : World),
         _original_apply self fn = BulkRaised (Failure f) left ->
         (Module__apply (S depth) self fn w = (Raise (Failure f), w)
          <-> is_sparse_error f = false)).
Proof.
  split; [apply is_sparse_error_spec|]. split.
  - intros w argv0 args Hd E.
    pose proof (main_trace w) as Ht. cbv zeta in Ht. rewrite Hd, E in Ht.
    destruct (is_sparse_error f); rewrite Ht; cbn [snd cli_calls].
    + split; reflexivity.
    + split; [|discriminate]. intros Hc. apply app_inv_head in Hc.
      discriminate Hc.
  - intros depth self left fn w Hbulk.
    destruct f as [msg|ty msg]; cbn [is_sparse_error].
    + destruct (str_contains sparse_marker msg) eqn:Hm.
      * split; [|discriminate]. intros E. exfalso.
        destruct (patched_apply_selected (Module__apply depth) self left fn msg w
                    Hbulk Hm (fun c w0 => Module__apply_only_logs depth c fn w0))
          as [records Hl].
        change (Module__apply (S depth) self fn w)
          with (patched_apply (Module__apply depth) self fn w) in E.
        rewrite E in Hl. cbn [snd] in Hl.
        apply (f_equal (@length LogRecord)) in Hl.
        rewrite length_app in Hl. simpl in Hl. lia.
      * split; [reflexivity|]. intros _. simpl. unfold patched_apply.
        now rewrite Hbulk, Hm.
    + split; [reflexivity|]. intros _. simpl. unfold patched_apply.
      now rewrite Hbulk.
Qed.
End Selection.

(** X17 on the MPS-like whisper and backend: the sparse error of the
    first run leads to the second call; the meta failure of the bulk
    transform is raised again as it is. *)
Lemma sparse_error_selection_witness :
  cli_calls (snd (@main (toy_whisper mps_cli) toy_clock
                    (start ["whisper_mps.py"; "audio.wav"; "--device"; "mps"])))
  = [["whisper_mps.py"; "audio.wav"; "--device"; "mps"];
     ["whisper_mps.py"; "audio.wav"; "--device"; "cpu"]]
  /\ @Module__apply mps_backend toy_modules 1 toy_child_meta
       (to_mps sparse_coo_message) (start [])
     = (Raise (Failure (NotImplementedError "Cannot copy out of meta tensor; no data!")),
        start []).
Proof.
  split.
  - exact (proj2 (proj1 (proj2 (@sparse_error_selection mps_backend toy_modules
                                  (toy_whisper mps_cli) toy_clock
                                  (NotImplementedError sparse_coo_message)))
                        (start ["whisper_mps.py"; "audio.wav"; "--device"; "mps"])
                        "whisper_mps.py" ["audio.wav"; "--device"; "mps"]
                        eq_refl eq_refl)
                 eq_refl).
  - exact (proj2 (proj2 (proj2 (@sparse_error_selection mps_backend toy_modules
                                  (toy_whisper mps_cli) toy_clock
                                  (NotImplementedError "Cannot copy out of meta tensor; no data!")))
                        0 toy_child_meta toy_child_meta
                        (to_mps sparse_coo_message) (start []) eq_refl)
                 eq_refl).
Defined.

(** ** Loading the script *)

Lemma environ_get_set (env : environ) (name value key : string) :
  environ_get (environ_set env name value) key
  = if name =? key then Some value else environ_get env key.
Proof.
  induction env as [|[k v] rest IH]; simpl.
  - reflexivity.
  - destruct (String.eqb_spec k name) as [->|Hne]; simpl.
    + now destruct (name =? key).
    + rewrite IH. destruct (String.eqb_spec k key) as [->|Hk]; [|reflexivity].
      destruct (String.eqb_spec name key); [congruence|reflexivity].
Qed.

Lemma environ_set_same (env : environ) (name value : string) :
  environ_get env name = Some value -> environ_set env name value = env.
Proof.
  induction env as [|[k v] rest IH]; simpl; [discriminate|].
  destruct (k =? name); [now intros [= ->]|].
  intros Hg. now rewrite (IH Hg).
Qed.

(** X18: loading the script sets [PYTORCH_ENABLE_MPS_STREAM] to [1]
    and [PYTORCH_MPS_HIGH_WATERMARK_RATIO] to [0.0] when MPS is
    available, whatever they were, and leaves every other variable as
    it was; without MPS it leaves the whole environment as it was;
    loading it a second time changes nothing more. *)
Theorem load_script_environ `{Platform} (env : environ) :
  (forall name,
      environ_get (fst (load_script env)) name
      = if mps_is_available then
          if name =? "PYTORCH_MPS_HIGH_WATERMARK_RATIO" then Some "0.0"
          else if name =? "PYTORCH_ENABLE_MPS_STREAM" then Some "1"
          else environ_get env name
        else environ_get env name)
  /\ (if mps_is_available then True else fst (load_script env) = env)
  /\ fst (load_script (fst (load_script env))) = fst (load_script env).
Proof.
  unfold load_script. destruct mps_is_available; cbn [fst].
  - split; [|split; [exact I|]].
    + intros name. rewrite !environ_get_set.
      rewrite (String.eqb_sym name "PYTORCH_MPS_HIGH_WATERMARK_RATIO").
      now rewrite (String.eqb_sym name "PYTORCH_ENABLE_MPS_STREAM").
    + set (env2 := environ_set (environ_set env _ _) _ _).
      assert (E1 : environ_set env2 "PYTORCH_ENABLE_MPS_STREAM" "1" = env2).
      { apply environ_set_same. unfold env2. now rewrite !environ_get_set. }
      rewrite E1. apply environ_set_same. unfold env2.
      now rewrite environ_get_set.
  - repeat split; reflexivity.
Qed.
